(** * Harmony: callback registry, persisted records and OGC variable parsing

    A shallow embedding of three pieces of the Harmony front end:

    - [app/backends/service-response.ts]: the process-wide table that binds
      a generated UUID to a response callback ([ServiceResponse]);
    - [app/models/record.ts]: the abstract database record and its [save]
      ([Models]);
    - the OGC coverages helper [parseVariables] ([Coverages]).

    JavaScript strings are modelled by [string]; a character stands for one
    code unit in the range 0..255, so the only line terminators a string of
    the model can hold are LF and CR.  Module-level mutable state is passed
    explicitly, and a function that can throw returns a [result] next to the
    state it leaves behind.  What the environment decides (the value of
    [uuid()], the clock read by [new Date()], the answer of the database) is
    an argument of the function that asks for it. *)

From Stdlib Require Import ZArith NArith Ascii String Bool.
From stdpp Require Import base option list strings gmap fin_maps.

Local Open Scope Z_scope.

(** ** Exceptions and results *)

(** The error classes the modelled code throws, each with the message it is
    constructed with. *)
Inductive exn : Type :=
  | Error (message : string)
  | TypeError (message : string)
  | RequestValidationError (message : string).

Inductive result (A : Type) : Type :=
  | Ok (a : A)
  | Throw (e : exn).
Arguments Ok {A} a.
Arguments Throw {A} e.

(** ** The JavaScript string and array operations the sources use *)

Module JS.

(** The string [s] when [s] is truthy: neither [null] nor empty. *)
Definition truthy (s : option string) : option string :=
  match s with
  | Some (String a rest) => Some (String a rest)
  | _ => None
  end.

Definition eqb (s t : string) : bool := bool_decide (s = t).

Definition char_eqb (a b : ascii) : bool := bool_decide (a = b).

(** [s.endsWith(c)] for a one-character search string. *)
Fixpoint endsWith (s : string) (c : ascii) : bool :=
  match s with
  | EmptyString => false
  | String a EmptyString => char_eqb a c
  | String _ rest => endsWith rest c
  end.

(** [s.split(c)] for a one-character separator: never the empty array. *)
Fixpoint split (s : string) (c : ascii) : list string :=
  match s with
  | EmptyString => [EmptyString]
  | String a rest =>
      if char_eqb a c then EmptyString :: split rest c
      else match split rest c with
           | [] => [String a EmptyString]
           | seg :: segs => String a seg :: segs
           end
  end.

(** [arr.pop()] as far as its value goes: the last element, [undefined]
    on the empty array. *)
Definition pop (arr : list string) : option string := last arr.

(** [arr.join(sep)]. *)
Fixpoint join (arr : list string) (sep : string) : string :=
  match arr with
  | [] => EmptyString
  | [x] => x
  | x :: rest => x +:+ sep +:+ join rest sep
  end.

(** [arr.indexOf(x) !== -1]. *)
Definition includes (arr : list string) (x : string) : bool :=
  existsb (fun y => eqb y x) arr.

(** [arr.find(p)]. *)
Definition find {A} (p : A -> bool) (arr : list A) : option A := List.find p arr.

(** Whether the character [c] occurs in [s]. *)
Fixpoint occurs (c : ascii) (s : string) : bool :=
  match s with
  | EmptyString => false
  | String a rest => char_eqb a c || occurs c rest
  end.

(** The characters a regular expression's dot does not match. *)
Definition is_line_terminator (c : ascii) : bool :=
  char_eqb c "010" || char_eqb c "013".

Fixpoint has_line_terminator (s : string) : bool :=
  match s with
  | EmptyString => false
  | String a rest => is_line_terminator a || has_line_terminator rest
  end.

(** What a greedy capture group of any characters (a starred dot) takes at
    the start of [s]: everything up to the first line terminator. *)
Fixpoint dot_star (s : string) : string :=
  match s with
  | EmptyString => EmptyString
  | String a rest =>
      if is_line_terminator a then EmptyString else String a (dot_star rest)
  end.

(** [Some rest] when [s] is [lit] followed by [rest]. *)
Fixpoint strip_prefix (lit s : string) : option string :=
  match lit, s with
  | EmptyString, _ => Some s
  | String _ _, EmptyString => None
  | String a lit', String b s' =>
      if char_eqb a b then strip_prefix lit' s' else None
  end.

(** The text after the leftmost occurrence of [lit] in [s]. *)
Fixpoint after_first (lit s : string) : option string :=
  match strip_prefix lit s with
  | Some rest => Some rest
  | None =>
      match s with
      | EmptyString => None
      | String _ s' => after_first lit s'
      end
  end.

(** [s.match(re)] for a regular expression [re] made of the literal [lit]
    followed by such a group: [None] for [null], otherwise group 1. *)
Definition match_literal_dot_star (lit s : string) : option string :=
  dot_star <$> after_first lit s.

End JS.

(** ** app/backends/service-response.ts *)

Module ServiceResponse.
Section Registry.

(** The callbacks are functions of the callers; the requests and responses
    are Express objects.  The registry only stores and passes them on. *)
Context {Handler Request Response : Type}.

(** [req.params.uuid], a route parameter and therefore a string. *)
Context (params_uuid : Request -> string).

Record ServiceResponseConfig : Type := { baseUrl : option string }.

(** A value of [idsToCallbacks]: the object [{ response: responseCallback }]. *)
Record Entry : Type := { response : Handler }.

(** The module's two top-level bindings. *)
Record State : Type := {
  config : ServiceResponseConfig;
  idsToCallbacks : gmap string Entry
}.

(** The state of a freshly loaded module. *)
Definition initial : State :=
  {| config := {| baseUrl := None |}; idsToCallbacks := ∅ |}.

Definition set_baseUrl (b : string) (st : State) : State :=
  {| config := {| baseUrl := Some b |}; idsToCallbacks := idsToCallbacks st |}.

Definition set_idsToCallbacks (m : gmap string Entry) (st : State) : State :=
  {| config := config st; idsToCallbacks := m |}.

(** [UUID_REGEX]: the literal [/service/] followed by a capture group of
    any characters.  The value is group 1 of [s.match(UUID_REGEX)]. *)
Definition UUID_REGEX (s : string) : option string :=
  JS.match_literal_dot_star "/service/" s.

(** A call [callback(req, res)] made by the registry. *)
Inductive Call : Type :=
  | Invoke (callback : Handler) (req : Request) (res : Response).

(** [url] may be [null]; a key that is [undefined] is in no map. *)
Definition unbindResponseUrl (url : option string) (st : State) : State :=
  match JS.truthy url with
  | Some u =>
      match JS.pop (JS.split u "/") with
      | Some id => set_idsToCallbacks (delete id (idsToCallbacks st)) st
      | None => st
      end
  | None => st
  end.

(** [callbackUUID] is the value [uuid()] returns in this call.  The
    [log.info] line writes to the log only. *)
Definition bindResponseUrl (callbackUUID : string) (responseCallback : Handler)
    (st : State) : result string * State :=
  match JS.truthy (baseUrl (config st)) with
  | None =>
      (Throw (Error "Call configure({ baseUrl }) before calling bindResponseUrl"), st)
  | Some base =>
      let st' :=
        set_idsToCallbacks
          (<[callbackUUID := {| response := responseCallback |}]> (idsToCallbacks st)) st in
      (Ok (base +:+ callbackUUID), st')
  end.

(** A stored value is an object, so [get] is truthy exactly on the keys of
    the map. *)
Definition isUrlBound (callbackUrl : string) (st : State) : bool :=
  match UUID_REGEX callbackUrl with
  | Some id =>
      match idsToCallbacks st !! id with
      | Some _ => true
      | None => false
      end
  | None => false
  end.

Definition responseHandler (req : Request) (res : Response) (st : State)
    : result Call * State :=
  let id := params_uuid req in
  match idsToCallbacks st !! id with
  | None => (Throw (Error ("Could not find response callback for UUID " +:+ id)), st)
  | Some entry => (Ok (Invoke (response entry) req res), st)
  end.

Definition configure (newBaseUrl : option string) (st : State) : result unit * State :=
  match JS.truthy newBaseUrl with
  | Some b =>
      let newUrl := b +:+ (if JS.endsWith b "/" then "" else "/") in
      match JS.truthy (baseUrl (config st)) with
      | Some old =>
          if negb (JS.eqb old newUrl) then
            (Throw (Error ("ServiceResponse baseUrl " +:+ old
                           +:+ " would be overwritten by " +:+ b)), st)
          else (Ok tt, set_baseUrl b st)
      | None => (Ok tt, set_baseUrl b st)
      end
  | None => (Ok tt, st)
  end.

(** The calls a client of the module can make, and the state each leaves. *)
Inductive Op : Type :=
  | OpConfigure (newBaseUrl : option string)
  | OpBind (callbackUUID : string) (responseCallback : Handler)
  | OpUnbind (url : option string)
  | OpIsUrlBound (callbackUrl : string)
  | OpResponseHandler (req : Request) (res : Response).

Definition step (op : Op) (st : State) : State :=
  match op with
  | OpConfigure b => snd (configure b st)
  | OpBind u h => snd (bindResponseUrl u h st)
  | OpUnbind url => unbindResponseUrl url st
  | OpIsUrlBound _ => st
  | OpResponseHandler req res => snd (responseHandler req res st)
  end.

(** A sequence of calls, first to last. *)
Definition run (ops : list Op) (st : State) : State :=
  fold_left (fun st op => step op st) ops st.

(** A base URL of the callback route: it ends in [/service/], and that is
    the only place where [/service/] occurs in it. *)
Definition service_endpoint (base : string) : Prop :=
  JS.after_first "/service/" base = Some EmptyString.

(** No key of the table contains a slash; [uuid()] never returns one that
    does. *)
Definition slash_free (m : gmap string Entry) : Prop :=
  map_Forall (fun id _ => JS.occurs "/" id = false) m.

(** The base URL with the trailing slash [configure] compares with:
    [baseUrl + (baseUrl.endsWith('/') ? '' : '/')]. *)
Definition with_trailing_slash (b : string) : string :=
  b +:+ (if JS.endsWith b "/" then "" else "/").

(** Whether a call is a [configure] with a truthy [baseUrl]. *)
Definition sets_baseUrl (op : Op) : bool :=
  match op with
  | OpConfigure b => bool_decide (is_Some (JS.truthy b))
  | _ => false
  end.

End Registry.
End ServiceResponse.

(** ** JSON.stringify on an array of strings *)

Module JSON.

Definition quotation_mark : ascii := "034".
Definition reverse_solidus : ascii := "092".

(** A lower-case hexadecimal digit. *)
Definition hex_digit (n : N) : ascii :=
  ascii_of_N (if (n <? 10)%N then 48 + n else 87 + n)%N.

(** The escape of one code unit inside a JSON string: the two-character
    escapes, the [u00XX] form for the other control characters, the
    character itself otherwise. *)
Definition escape (c : ascii) : string :=
  let n := N_of_ascii c in
  let esc (x : ascii) := String reverse_solidus (String x EmptyString) in
  if JS.char_eqb c quotation_mark then esc quotation_mark
  else if JS.char_eqb c reverse_solidus then esc reverse_solidus
  else if (n =? 8)%N then esc "b"%char
  else if (n =? 9)%N then esc "t"%char
  else if (n =? 10)%N then esc "n"%char
  else if (n =? 12)%N then esc "f"%char
  else if (n =? 13)%N then esc "r"%char
  else if (n <? 32)%N then
    String reverse_solidus
      (String "u"%char (String "0"%char (String "0"%char
        (String (hex_digit (n / 16)) (String (hex_digit (n mod 16)) EmptyString)))))
  else String c EmptyString.

Fixpoint escape_all (s : string) : string :=
  match s with
  | EmptyString => EmptyString
  | String c rest => escape c +:+ escape_all rest
  end.

Definition stringify_string (s : string) : string :=
  String quotation_mark (escape_all s +:+ String quotation_mark EmptyString).

(** [JSON.stringify(arr)] for an array of strings. *)
Definition stringify (arr : list string) : string :=
  "[" +:+ JS.join (map stringify_string arr) "," +:+ "]".

(** The rest of the text of an array once an element has been written:
    the elements that follow, each after a comma, and the closing bracket. *)
Fixpoint elements_tail (arr : list string) : string :=
  match arr with
  | [] => "]"
  | x :: rest => "," +:+ stringify_string x +:+ elements_tail rest
  end.

(** Reading back what [escape] wrote. *)
Definition hex_value (c : ascii) : N :=
  let n := N_of_ascii c in
  if (n <? 58)%N then (n - 48)%N else (n - 87)%N.

(** The code unit at the head of the inside of a JSON string, and the text
    after it; [None] at the closing quotation mark and on text that
    [escape] does not produce. *)
Definition unescape (s : string) : option (ascii * string) :=
  match s with
  | EmptyString => None
  | String c rest =>
      if JS.char_eqb c quotation_mark then None
      else if JS.char_eqb c reverse_solidus then
        match rest with
        | String x rest' =>
            if JS.char_eqb x quotation_mark then Some (quotation_mark, rest')
            else if JS.char_eqb x reverse_solidus then Some (reverse_solidus, rest')
            else if JS.char_eqb x "b" then Some ("008"%char, rest')
            else if JS.char_eqb x "t" then Some ("009"%char, rest')
            else if JS.char_eqb x "n" then Some ("010"%char, rest')
            else if JS.char_eqb x "f" then Some ("012"%char, rest')
            else if JS.char_eqb x "r" then Some ("013"%char, rest')
            else if JS.char_eqb x "u" then
              match rest' with
              | String _ (String _ (String h (String l rest''))) =>
                  Some (ascii_of_N (16 * hex_value h + hex_value l), rest'')
              | _ => None
              end
            else None
        | EmptyString => None
        end
      else Some (c, rest)
  end.

End JSON.

(** ** app/models/record.ts *)

Module Models.
Section RecordClass.

(** The fields a subclass declares besides the three of [Record]. *)
Context {Fields : Type}.

(** A [Date] is its time value, milliseconds since the epoch; an unset
    field is [None].  A [Date] object is truthy whatever its time value. *)
Record Record_ : Type := {
  updatedAt : option Z;
  createdAt : option Z;
  id : option Z;
  fields : Fields
}.

Definition set_updatedAt (d : option Z) (r : Record_) : Record_ :=
  {| updatedAt := d; createdAt := createdAt r; id := id r; fields := fields r |}.

Definition set_createdAt (d : option Z) (r : Record_) : Record_ :=
  {| updatedAt := updatedAt r; createdAt := d; id := id r; fields := fields r |}.

Definition set_id (i : option Z) (r : Record_) : Record_ :=
  {| updatedAt := updatedAt r; createdAt := createdAt r; id := i; fields := fields r |}.

(** What a subclass provides: its static [table] and its [validate]. *)
Class RecordConstructor : Type := {
  table : string;
  validate : Record_ -> option (list string)
}.

(** [Record.prototype.validate], which a subclass inherits unless it
    overrides it. *)
Definition Record_validate (this : Record_) : option (list string) := None.

(** The statements [save] builds on the transaction: the row is the record
    as it stands when the statement runs. *)
Inductive Statement : Type :=
  | Insert (into : string) (row : Record_) (returning : option string)
  | Update (tbl : string) (where_id : option Z) (row : Record_).

(** How the awaited statement settles: fulfilled with an array (of ids, for
    an insert) or rejected. *)
Inductive Settled : Type :=
  | Fulfilled (value : list Z)
  | RejectedWith (reason : exn).

(** What one call of [save] reads from its environment. *)
Record Env : Type := {
  now : Z;                 (* the time value of [new Date()] *)
  client : string;         (* [db.client.config.client] *)
  settles : Settled        (* the outcome of [await stmt] *)
}.

Context `{RecordConstructor}.

(** The record once [save] has stamped it, on the insert path and on the
    update path, and the [returning] clause of the insert. *)
Definition stamped_new (t : Z) (this : Record_) : Record_ :=
  set_createdAt (Some t) (set_updatedAt (Some t) this).

Definition stamped (t : Z) (this : Record_) : Record_ :=
  set_updatedAt (Some t) this.

Definition returning_id (env : Env) : option string :=
  if JS.eqb (client env) "pg" then Some "id" else None.

(** The time a [save] that returns leaves in [createdAt]: the one the
    record has, or else the clock reading of the call. *)
Definition created_stamp (env : Env) (this : Record_) : Z :=
  match createdAt this with
  | Some created => created
  | None => now env
  end.

(** [save]: the outcome, the record afterwards, and the statements the
    transaction has received. *)
Definition save (env : Env) (this : Record_) (transaction : list Statement)
    : result unit * Record_ * list Statement :=
  match validate this with
  | Some errors =>
      (Throw (TypeError ("Job record is invalid: " +:+ JSON.stringify errors)),
       this, transaction)
  | None =>
      let this := set_updatedAt (Some (now env)) this in
      let newRecord := negb (bool_decide (is_Some (createdAt this))) in
      if newRecord then
        let this := set_createdAt (updatedAt this) this in
        let stmt :=
          Insert table this (if JS.eqb (client env) "pg" then Some "id" else None) in
        match settles env with
        | Fulfilled value => (Ok tt, set_id (head value) this, transaction ++ [stmt])
        | RejectedWith reason => (Throw reason, this, transaction ++ [stmt])
        end
      else
        let stmt := Update table (id this) this in
        match settles env with
        | Fulfilled _ => (Ok tt, this, transaction ++ [stmt])
        | RejectedWith reason => (Throw reason, this, transaction ++ [stmt])
        end
  end.

(** A run of [save] calls on one record, one environment per call, that
    stops at the first call that throws: the record after each call that
    returned, oldest first, and the record and statements at the end. *)
Fixpoint saves (envs : list Env) (this : Record_) (transaction : list Statement)
    : list Record_ * (Record_ * list Statement) :=
  match envs with
  | [] => ([], (this, transaction))
  | env :: envs' =>
      match save env this transaction with
      | (Ok _, this', transaction') =>
          let '(trace, final) := saves envs' this' transaction' in
          (this' :: trace, final)
      | (Throw _, this', transaction') => ([], (this', transaction'))
      end
  end.

(** The table a statement is built on. *)
Definition statement_table (stmt : Statement) : string :=
  match stmt with
  | Insert into _ _ => into
  | Update tbl _ _ => tbl
  end.

End RecordClass.
Arguments Record_ : clear implicits.
Arguments Statement : clear implicits.
Arguments RecordConstructor : clear implicits.
End Models.

(** ** The OGC coverages helper [parseVariables] *)

Module Coverages.
Section ParseVariables.

(** A UMM-Var variable of the CMR, with its [umm.Name]. *)
Context {CmrUmmVariable : Type}.
Context (umm_Name : CmrUmmVariable -> string).

Record CmrCollection : Type := {
  id : string;
  variables : list CmrUmmVariable
}.

(** [variables] is optional: unset when all variables are requested. *)
Record VariableInfo : Type := {
  collectionId : string;
  info_variables : option (list CmrUmmVariable)
}.

Definition all_alone_message : string :=
  String "034" ("all" +:+ String "034" " cannot be specified alongside other variables").

(** The inner loop over [variableIds] for one collection: the variables
    found are pushed, and each id found leaves [missingVariables]. *)
Definition collect (collection : CmrCollection) (variableIds : list string)
    (missingVariables : list string) : list string * list CmrUmmVariable :=
  fold_left
    (fun '(missing, found) variableId =>
       match JS.find (fun v => JS.eqb (umm_Name v) variableId) (variables collection) with
       | Some variable =>
           (filter (fun v => v <> variableId) missing, found ++ [variable])
       | None => (missing, found)
       end)
    variableIds (missingVariables, []).

Definition parseVariables (eosdisCollections : list CmrCollection)
    (collectionIdParam : string) : result (list VariableInfo) :=
  let variableIds := JS.split collectionIdParam "," in
  if JS.includes variableIds "all" then
    if negb (length variableIds =? 1)%nat then
      Throw (RequestValidationError all_alone_message)
    else
      Ok (fold_left
            (fun variableInfo collection =>
               variableInfo ++ [{| collectionId := id collection; info_variables := None |}])
            eosdisCollections [])
  else
    let '(missingVariables, variableInfo) :=
      fold_left
        (fun '(missing, variableInfo) collection =>
           let '(missing', found) := collect collection variableIds missing in
           (missing',
            variableInfo ++ [{| collectionId := id collection; info_variables := Some found |}]))
        eosdisCollections (variableIds, []) in
    if (0 <? length missingVariables)%nat then
      Throw (RequestValidationError
               ("Coverages were not found for the provided CMR collection: "
                +:+ JS.join missingVariables ", "))
    else Ok variableInfo.

(** The variable of a collection that [find] returns for an id: the
    first one with that [umm.Name]. *)
Definition lookup_variable (collection : CmrCollection) (variableId : string)
    : option CmrUmmVariable :=
  JS.find (fun v => JS.eqb (umm_Name v) variableId) (variables collection).

(** The requested ids that name a variable of the collection. *)
Definition has_variable (collection : CmrCollection) (variableId : string) : Prop :=
  is_Some (lookup_variable collection variableId).

(** The requested ids that name a variable of no collection. *)
Definition found_nowhere (eosdisCollections : list CmrCollection)
    (variableId : string) : Prop :=
  Forall (fun collection => ~ has_variable collection variableId) eosdisCollections.

#[global] Instance has_variable_dec (collection : CmrCollection) (variableId : string) :
  Decision (has_variable collection variableId).
Proof. unfold has_variable. apply _. Defined.

#[global] Instance found_nowhere_dec (eosdisCollections : list CmrCollection)
    (variableId : string) : Decision (found_nowhere eosdisCollections variableId).
Proof. unfold found_nowhere. apply _. Defined.

(** The entry [parseVariables] pushes for a collection when variables are
    requested by id. *)
Definition requested_entry (variableIds : list string) (collection : CmrCollection)
    : VariableInfo :=
  {| collectionId := id collection;
     info_variables := Some (omap (lookup_variable collection) variableIds) |}.

(** The entry it pushes for a collection when all variables are requested. *)
Definition all_entry (collection : CmrCollection) : VariableInfo :=
  {| collectionId := id collection; info_variables := None |}.

End ParseVariables.
End Coverages.

(** ** The EOSS frontend: the variables of [rangeSubset] *)

Module Eoss.
Section GetGranule.

Context {CmrUmmVariable : Type}.
Context (umm_Name : CmrUmmVariable -> string).

(** The loop of [getGranule] over [query.rangesubset], from the variables
    of [req.collections[0]]: every requested name must be the [umm.Name] of
    a variable, which is pushed; the first one that is not throws. *)
Fixpoint resolve (collectionVars : list CmrUmmVariable)
    (variablesRequested : list string) (variables : list CmrUmmVariable)
    : result (list CmrUmmVariable) :=
  match variablesRequested with
  | [] => Ok variables
  | variableRequested :: rest =>
      match JS.find (fun v => JS.eqb (umm_Name v) variableRequested) collectionVars with
      | None =>
          Throw (RequestValidationError
                   ("Invalid rangeSubset parameter: " +:+ variableRequested))
      | Some variable => resolve collectionVars rest (variables ++ [variable])
      end
  end.

(** [rangesubset] is an array when the parameter is given, and an array is
    truthy also when empty. *)
Definition rangeSubsetVariables (collectionVars : list CmrUmmVariable)
    (rangesubset : option (list string)) : result (list CmrUmmVariable) :=
  match rangesubset with
  | Some variablesRequested => resolve collectionVars variablesRequested []
  | None => Ok []
  end.

(** The character classes of [GRANULE_URL_PATH_REGEX]: a decimal digit,
    and a word character (a letter, a digit or the underscore). *)
Definition is_digit (c : ascii) : bool :=
  let n := N_of_ascii c in (48 <=? n)%N && (n <=? 57)%N.

Definition is_word (c : ascii) : bool :=
  let n := N_of_ascii c in
  is_digit c || (65 <=? n)%N && (n <=? 90)%N || (97 <=? n)%N && (n <=? 122)%N
  || (n =? 95)%N.

(** What a greedy repetition of a character class takes at the start of
    [s], and what it leaves. *)
Fixpoint span (p : ascii -> bool) (s : string) : string * string :=
  match s with
  | EmptyString => (EmptyString, EmptyString)
  | String a rest =>
      if p a then let '(taken, remaining) := span p rest in (String a taken, remaining)
      else (EmptyString, s)
  end.

Fixpoint all_chars (p : ascii -> bool) (s : string) : bool :=
  match s with
  | EmptyString => true
  | String a rest => p a && all_chars p rest
  end.

(** The match of [GRANULE_URL_PATH_REGEX] that starts at the head of [s]:
    a slash, [G], one or more digits, a hyphen, one or more word
    characters.  Each repetition is followed by a character outside its
    class or by nothing, so giving back characters never helps and the
    greedy match is the only one. *)
Definition granule_at (s : string) : option string :=
  match s with
  | String a (String b rest) =>
      if JS.char_eqb a "/" && JS.char_eqb b "G" then
        match span is_digit rest with
        | (String d digits, String h rest') =>
            if JS.char_eqb h "-" then
              match span is_word rest' with
              | (String w word, _) =>
                  Some ("/G" +:+ String d digits +:+ "-" +:+ String w word)
              | (EmptyString, _) => None
              end
            else None
        | _ => None
        end
      else None
  | _ => None
  end.

(** [url.match(GRANULE_URL_PATH_REGEX)[0]]: the leftmost match. *)
Fixpoint first_granule_match (url : string) : option string :=
  match granule_at url with
  | Some m => Some m
  | None =>
      match url with
      | EmptyString => None
      | String _ rest => first_granule_match rest
      end
  end.

(** [granuleMatch[0].substr(1, granuleMatch[0].length - 1)]: the match
    without its slash. *)
Definition granuleId (url : string) : option string :=
  match first_granule_match url with
  | Some (String _ granule) => Some granule
  | _ => None
  end.

(** The shape of a CMR granule id. *)
Definition granule_id_shape (g : string) : Prop :=
  exists digits word,
    g = "G" +:+ digits +:+ "-" +:+ word
    /\ digits <> EmptyString /\ all_chars is_digit digits = true
    /\ word <> EmptyString /\ all_chars is_word word = true.

End GetGranule.
End Eoss.

(** ** Concrete values used in the examples *)

Module Sample.

(** A version-4 UUID as [uuid()] prints it. *)
Definition callbackUUID : string := "1b9d6bcd-bbfd-4b2d-9b5d-ab8dfbbd4bed".

(** A registry whose handlers are named by strings, and whose requests
    are reduced to their [uuid] route parameter. *)
Definition State : Type := @ServiceResponse.State string.
Definition initial : State := ServiceResponse.initial.
Definition configure (b : string) (st : State) : result unit * State :=
  ServiceResponse.configure (Some b) st.
Definition bindResponseUrl (u h : string) (st : State) : result string * State :=
  ServiceResponse.bindResponseUrl u h st.
Definition unbindResponseUrl (url : string) (st : State) : State :=
  ServiceResponse.unbindResponseUrl (Some url) st.
Definition responseHandler (uuid : string) (st : State)
    : result (@ServiceResponse.Call string string unit) * State :=
  ServiceResponse.responseHandler (fun req : string => req) uuid tt st.


(** The module after [configure] with the URL of the callback route, and
    after one [bindResponseUrl] in that state. *)
Definition configured : State :=
  snd (configure "http://localhost:3001/service/" initial).
Definition bound : State :=
  snd (bindResponseUrl callbackUUID "onComplete" configured).
Definition boundUrl : string :=
  "http://localhost:3001/service/1b9d6bcd-bbfd-4b2d-9b5d-ab8dfbbd4bed".

(** A record class with one field of its own, which must not be empty. *)
Definition Job : Type := Models.Record_ string.

#[global] Instance Job_class : Models.RecordConstructor string := {|
  Models.table := "jobs";
  Models.validate this :=
    match Models.fields this with
    | EmptyString => Some ["username is required"]
    | String _ _ => None
    end
|}.

Definition job (username : string) : Job :=
  {| Models.updatedAt := None; Models.createdAt := None; Models.id := None;
     Models.fields := username |}.

(** A record built with an [id] and no timestamps. *)
Definition job_with_id (i : Z) (username : string) : Job :=
  {| Models.updatedAt := None; Models.createdAt := None; Models.id := Some i;
     Models.fields := username |}.

(** A call at clock reading [t], against Postgres, whose statement is
    fulfilled with [value]. *)
Definition at_time (t : Z) (value : list Z) : Models.Env :=
  {| Models.now := t; Models.client := "pg"; Models.settles := Models.Fulfilled value |}.

(** A record class that inherits [validate], with no field of its own. *)
Definition Plain_class : Models.RecordConstructor unit := {|
  Models.table := "plain";
  Models.validate := Models.Record_validate
|}.

Definition plain : Models.Record_ unit :=
  {| Models.updatedAt := None; Models.createdAt := None; Models.id := None;
     Models.fields := tt |}.

(** A call at clock reading [t], against SQLite, whose statement is
    rejected. *)
Definition failing_at (t : Z) : Models.Env :=
  {| Models.now := t; Models.client := "sqlite3";
     Models.settles := Models.RejectedWith (Error "SQLITE_BUSY: database is locked") |}.

(** A collection with two variables, the variables being their names. *)
Definition collection : @Coverages.CmrCollection string :=
  {| Coverages.id := "C1233800302-EEDTEST";
     Coverages.variables := ["red_var"; "green_var"] |}.

End Sample.

(** * Properties *)

(** ** Strings *)

Section StringFacts.

Lemma string_app_cons (a : ascii) (s t : string) :
  String a s +:+ t = String a (s +:+ t).
Proof. reflexivity. Qed.

Lemma string_cons_inj (a : ascii) (s t : string) : String a s = String a t -> s = t.
Proof. congruence. Qed.

Lemma string_app_nil (t : string) : EmptyString +:+ t = t.
Proof. reflexivity. Qed.

Lemma string_app_assoc (s t u : string) : (s +:+ t) +:+ u = s +:+ t +:+ u.
Proof.
  induction s as [|a s IH]; [reflexivity|].
  rewrite !string_app_cons. by rewrite IH.
Qed.

Lemma string_app_length (s t : string) :
  String.length (s +:+ t) = (String.length s + String.length t)%nat.
Proof.
  induction s as [|a s IH]; [reflexivity|].
  rewrite string_app_cons. cbn [String.length]. by rewrite IH.
Qed.

Lemma char_eqb_eq (a b : ascii) : JS.char_eqb a b = true <-> a = b.
Proof. unfold JS.char_eqb. apply bool_decide_eq_true. Qed.

Lemma strip_prefix_Some (lit s rest : string) :
  JS.strip_prefix lit s = Some rest -> s = lit +:+ rest.
Proof.
  revert s. induction lit as [|a lit IH]; intros [|b s] Hs; simplify_eq/=; try done.
  destruct (JS.char_eqb a b) eqn:Hab; [|done].
  apply char_eqb_eq in Hab as ->. rewrite string_app_cons. f_equal. by apply IH.
Qed.

Lemma strip_prefix_app (lit s rest t : string) :
  JS.strip_prefix lit s = Some rest ->
  JS.strip_prefix lit (s +:+ t) = Some (rest +:+ t).
Proof.
  revert s. induction lit as [|a lit IH]; intros s Hs.
  - destruct s; by simplify_eq/=.
  - destruct s as [|b s]; [done|]. rewrite string_app_cons. cbn in *.
    destruct (JS.char_eqb a b); [by apply IH | done].
Qed.

(** A mismatch found within [s] is still there when [s] is extended; the
    length bound excludes the case where [s] ran out first. *)
Lemma strip_prefix_None_app (lit s t : string) :
  JS.strip_prefix lit s = None ->
  (String.length lit <= String.length s)%nat ->
  JS.strip_prefix lit (s +:+ t) = None.
Proof.
  revert s. induction lit as [|a lit IH]; intros s Hs Hlen.
  - by destruct s.
  - destruct s as [|b s]; cbn in Hlen; [lia|].
    rewrite string_app_cons. cbn in *.
    destruct (JS.char_eqb a b); [apply IH; [done | lia] | done].
Qed.

Lemma after_first_Some (lit s rest : string) :
  JS.after_first lit s = Some rest -> exists pre, s = pre +:+ lit +:+ rest.
Proof.
  induction s as [|b s IH]; cbn [JS.after_first];
    destruct (JS.strip_prefix lit _) eqn:Hp; intros Hs; simplify_eq.
  - exists EmptyString. rewrite string_app_nil. by apply strip_prefix_Some.
  - exists EmptyString. rewrite string_app_nil. by apply strip_prefix_Some.
  - destruct (IH Hs) as [pre ->]. by exists (String b pre).
Qed.

Lemma after_first_app (lit s rest t : string) :
  JS.after_first lit s = Some rest ->
  JS.after_first lit (s +:+ t) = Some (rest +:+ t).
Proof.
  induction s as [|b s IH]; cbn [JS.after_first];
    destruct (JS.strip_prefix lit _) eqn:Hp; intros Hs; simplify_eq.
  - rewrite string_app_nil. destruct lit; [|done]. cbn in Hp. simplify_eq.
    destruct t; cbn; reflexivity.
  - rewrite string_app_cons. cbn [JS.after_first].
    rewrite <- string_app_cons. by rewrite (strip_prefix_app _ _ _ _ Hp).
  - rewrite string_app_cons. cbn [JS.after_first].
    rewrite <- string_app_cons. rewrite strip_prefix_None_app; [by apply IH | done |].
    destruct (after_first_Some _ _ _ Hs) as [pre ->].
    cbn [String.length]. rewrite !string_app_length. lia.
Qed.

Lemma has_line_terminator_app (s t : string) :
  JS.has_line_terminator (s +:+ t)
  = JS.has_line_terminator s || JS.has_line_terminator t.
Proof.
  induction s as [|a s IH]; [reflexivity|].
  rewrite string_app_cons. cbn [JS.has_line_terminator].
  by rewrite IH, orb_assoc.
Qed.

Lemma dot_star_id (s : string) :
  JS.has_line_terminator s = false -> JS.dot_star s = s.
Proof.
  induction s as [|a s IH]; [done|]. cbn.
  intros [Ha Hs]%orb_false_elim. rewrite Ha. f_equal. by apply IH.
Qed.

Lemma split_nonempty (s : string) (c : ascii) : JS.split s c <> [].
Proof.
  destruct s as [|a s]; cbn; [done|].
  destruct (JS.char_eqb a c); [done|]. by destruct (JS.split s c).
Qed.

Lemma split_no_separator (s : string) (c : ascii) :
  JS.occurs c s = false -> JS.split s c = [s].
Proof.
  induction s as [|a s IH]; [done|]. cbn.
  intros [Ha Hs]%orb_false_elim. rewrite Ha. by rewrite (IH Hs).
Qed.

(** Splitting at a separator: what follows it is split on its own. *)
Lemma split_app_separator (pre rest : string) (c : ascii) :
  exists seg segs, JS.split (pre +:+ String c rest) c = (seg :: segs) ++ JS.split rest c.
Proof.
  induction pre as [|a pre (seg & segs & IH)].
  - exists EmptyString, []. rewrite string_app_nil. cbn [JS.split].
    by rewrite (proj2 (char_eqb_eq c c) eq_refl).
  - rewrite string_app_cons. cbn [JS.split]. rewrite IH.
    destruct (JS.char_eqb a c).
    + by exists EmptyString, (seg :: segs).
    + by exists (String a seg), segs.
Qed.

(** [url.split('/').pop()] is what follows the last separator. *)
Lemma pop_split_last_segment (pre rest : string) (c : ascii) :
  JS.occurs c rest = false ->
  JS.pop (JS.split (pre +:+ String c rest) c) = Some rest.
Proof.
  intros Hrest. destruct (split_app_separator pre rest c) as (seg & segs & ->).
  rewrite (split_no_separator _ _ Hrest). unfold JS.pop.
  by rewrite last_app.
Qed.

End StringFacts.

(** ** The callback registry *)

Section RegistryFacts.
Import ServiceResponse.

Context {Handler Request Response : Type}.
Context (params_uuid : Request -> string).

Local Abbreviation State := (@State Handler).
Local Abbreviation Op := (@Op Handler Request Response).

Lemma UUID_REGEX_Some (url id : string) :
  UUID_REGEX url = Some id ->
  exists pre rest, url = pre +:+ "/service/" +:+ rest /\ id = JS.dot_star rest.
Proof.
  unfold UUID_REGEX, JS.match_literal_dot_star.
  destruct (JS.after_first _ url) as [rest|] eqn:Hrest; intros ?; simplify_eq/=.
  destruct (after_first_Some _ _ _ Hrest) as [pre ->]. by exists pre, rest.
Qed.

(** On a URL made of a service endpoint and a token, [UUID_REGEX] captures
    the token. *)
Lemma UUID_REGEX_endpoint (base token : string) :
  service_endpoint base ->
  JS.has_line_terminator token = false ->
  UUID_REGEX (base +:+ token) = Some token.
Proof.
  unfold service_endpoint, UUID_REGEX, JS.match_literal_dot_star. intros Hbase Htoken.
  rewrite (after_first_app _ _ _ token Hbase), string_app_nil. cbn.
  by rewrite dot_star_id.
Qed.

Lemma service_endpoint_truthy (base : string) :
  service_endpoint base -> JS.truthy (Some base) = Some base.
Proof. by destruct base. Qed.

(** What [unbindResponseUrl] deletes from the table. *)
Lemma unbindResponseUrl_table (u : string) (st : State) :
  idsToCallbacks (unbindResponseUrl (Some u) st)
  = match u with
    | EmptyString => idsToCallbacks st
    | _ => match JS.pop (JS.split u "/") with
           | Some id => delete id (idsToCallbacks st)
           | None => idsToCallbacks st
           end
    end.
Proof.
  unfold unbindResponseUrl. destruct u as [|a u]; [done|]. cbn [JS.truthy].
  by destruct (JS.pop _).
Qed.

Lemma unbindResponseUrl_lookup (url : option string) (st : State) (id : string) (e : Entry) :
  idsToCallbacks (unbindResponseUrl url st) !! id = Some e ->
  idsToCallbacks st !! id = Some e.
Proof.
  unfold unbindResponseUrl. destruct (JS.truthy url) as [u|]; [|done].
  destruct (JS.pop _) as [k|]; [|done]. cbn.
  intros H. apply lookup_delete_Some in H. tauto.
Qed.

(** [configure] leaves the table alone, whether it throws or not. *)
Lemma configure_table (b : option string) (st : State) :
  idsToCallbacks (snd (configure b st)) = idsToCallbacks st.
Proof.
  unfold configure. destruct (JS.truthy b); [|done].
  destruct (JS.truthy (baseUrl _)); [|done]. by destruct (negb _).
Qed.

(** The first [configure] stores its argument as it is given. *)
Lemma configure_first (a : ascii) (rest : string) :
  configure (Some (String a rest)) (initial : State)
  = (Ok tt, set_baseUrl (String a rest) initial).
Proof. reflexivity. Qed.

(** The URL [bindResponseUrl] returns is the stored base URL with the token
    appended. *)
Lemma bindResponseUrl_url (u url : string) (h : Handler) (st : State) :
  fst (bindResponseUrl u h st) = Ok url ->
  exists base, baseUrl (config st) = Some base /\ url = base +:+ u.
Proof.
  unfold bindResponseUrl. destruct (baseUrl (config st)) as [[|a base]|]; try done.
  cbn. intros [= <-]. by eexists.
Qed.

(** [bindResponseUrl] sets one key, or throws and changes nothing. *)
Lemma bindResponseUrl_table (u : string) (h : Handler) (st : State) :
  idsToCallbacks (snd (bindResponseUrl u h st))
  = match JS.truthy (baseUrl (config st)) with
    | Some _ => <[u := {| response := h |}]> (idsToCallbacks st)
    | None => idsToCallbacks st
    end.
Proof. unfold bindResponseUrl. by destruct (JS.truthy _). Qed.

Lemma responseHandler_state (req : Request) (res : Response) (st : State) :
  snd (responseHandler params_uuid req res st) = st.
Proof. unfold responseHandler. by destruct (_ !! _). Qed.

(** The invariant of the table under the module's calls, as long as the
    generated keys have no slash. *)
Lemma slash_free_step (op : Op) (st : State) :
  (forall u h, op = OpBind u h -> JS.occurs "/" u = false) ->
  slash_free (idsToCallbacks st) -> slash_free (idsToCallbacks (step params_uuid op st)).
Proof.
  intros Hop Hst. destruct op as [b|u h|url|url|req res]; cbn [step].
  - by rewrite configure_table.
  - rewrite bindResponseUrl_table. destruct (JS.truthy _); [|done].
    apply map_Forall_insert_2; [by eapply Hop | done].
  - intros k e Hk. eapply Hst, unbindResponseUrl_lookup, Hk.
  - done.
  - by rewrite responseHandler_state.
Qed.

(** A bound token stays bound across a call unless the call is an
    [unbindResponseUrl] of a URL whose last segment is the token. *)
Lemma step_unbinds (op : Op) (st : State) (id : string) :
  is_Some (idsToCallbacks st !! id) ->
  idsToCallbacks (step params_uuid op st) !! id = None ->
  exists u, op = OpUnbind (Some u) /\ JS.pop (JS.split u "/") = Some id.
Proof.
  intros [e He] Hnone. destruct op as [b|u h|url|url|req res]; cbn [step] in Hnone.
  - rewrite configure_table in Hnone. congruence.
  - rewrite bindResponseUrl_table in Hnone. destruct (JS.truthy _); [|congruence].
    apply lookup_insert_None in Hnone. destruct Hnone; congruence.
  - destruct url as [u|]; [|cbn in Hnone; congruence].
    rewrite unbindResponseUrl_table in Hnone. exists u. split; [done|].
    destruct u as [|a u]; [congruence|].
    destruct (JS.pop _) as [k|]; [|congruence].
    apply lookup_delete_None in Hnone. destruct Hnone; congruence.
  - congruence.
  - rewrite responseHandler_state in Hnone. congruence.
Qed.

Lemma run_unbinds (ops : list Op) (st : State) (id : string) :
  is_Some (idsToCallbacks st !! id) ->
  idsToCallbacks (run params_uuid ops st) !! id = None ->
  exists u, In (OpUnbind (Some u)) ops /\ JS.pop (JS.split u "/") = Some id.
Proof.
  revert st. induction ops as [|op ops IH]; intros st Hst Hnone; cbn in Hnone.
  - destruct Hst. congruence.
  - destruct (idsToCallbacks (step params_uuid op st) !! id) as [e|] eqn:Hop.
    + destruct (IH _ (mk_is_Some _ _ Hop) Hnone) as (u & Hu & Hid).
      exists u. split; [by right | done].
    + destruct (step_unbinds _ _ _ Hst Hop) as (u & -> & Hid).
      exists u. split; [by left | done].
Qed.

End RegistryFacts.

Section RegistryClaims.
Import ServiceResponse.

Context {Handler Request Response : Type}.
Context (params_uuid : Request -> string).

Local Abbreviation State := (@State Handler).
Local Abbreviation Op := (@Op Handler Request Response).

Lemma isUrlBound_after_bind (st : State) (f : Handler) (callbackUUID base : string) :
  baseUrl (config st) = Some base ->
  service_endpoint base ->
  JS.has_line_terminator callbackUUID = false ->
  exists st',
    bindResponseUrl callbackUUID f st = (Ok (base +:+ callbackUUID), st')
    /\ isUrlBound (base +:+ callbackUUID) st' = true.
Proof.
  intros Hbase Hend Huuid. unfold bindResponseUrl.
  rewrite Hbase, (service_endpoint_truthy _ Hend). eexists. split; [done|].
  unfold isUrlBound. rewrite (UUID_REGEX_endpoint _ _ Hend Huuid). cbn.
  by rewrite lookup_insert_eq.
Qed.

Lemma isUrlBound_after_unbind (st : State) (u : string) :
  slash_free (idsToCallbacks st) ->
  JS.has_line_terminator u = false ->
  isUrlBound u (unbindResponseUrl (Some u) st) = false.
Proof.
  intros Hst Hu. unfold isUrlBound.
  destruct (UUID_REGEX u) as [id|] eqn:Hre; [|done].
  destruct (idsToCallbacks _ !! id) as [e|] eqn:He; [exfalso|done].
  pose proof (unbindResponseUrl_lookup _ _ _ _ He) as Hbound.
  apply Hst in Hbound. cbn in Hbound.
  destruct (UUID_REGEX_Some _ _ Hre) as (pre & rest & -> & ->).
  rewrite !has_line_terminator_app in Hu.
  apply orb_false_elim in Hu as [_ [_ Hrest]%orb_false_elim].
  rewrite (dot_star_id _ Hrest) in He, Hbound.
  rewrite unbindResponseUrl_table in He.
  change (pre +:+ "/service/" +:+ rest)
    with (pre +:+ "/service" +:+ String "/" rest) in He.
  rewrite <- string_app_assoc, (pop_split_last_segment _ _ _ Hbound) in He.
  destruct (_ +:+ String "/" rest) eqn:Hurl in He.
  - apply (f_equal String.length) in Hurl.
    rewrite string_app_length in Hurl. cbn in Hurl. lia.
  - by rewrite lookup_delete_eq in He.
Qed.

(** Where [isUrlBound] does agree with the table.  In a state whose base
    URL is a service endpoint (it ends in [/service/], its only
    occurrence), and with a generated token that has no line terminator,
    the URL [bindResponseUrl] returns is reported bound by [isUrlBound].
    For every URL without line terminator, in a state whose tokens have no
    slash, [isUrlBound] is false after [unbindResponseUrl] of that URL. *)
Theorem bind_then_bound_unbind_then_unbound (st : State) :
  (forall (f : Handler) (callbackUUID base : string),
      baseUrl (config st) = Some base ->
      service_endpoint base ->
      JS.has_line_terminator callbackUUID = false ->
      exists st',
        bindResponseUrl callbackUUID f st = (Ok (base +:+ callbackUUID), st')
        /\ isUrlBound (base +:+ callbackUUID) st' = true)
  /\ (forall u : string,
        slash_free (idsToCallbacks st) ->
        JS.has_line_terminator u = false ->
        isUrlBound u (unbindResponseUrl (Some u) st) = false).
Proof.
  split.
  - intros f callbackUUID base. apply isUrlBound_after_bind.
  - intros u. apply isUrlBound_after_unbind.
Qed.

(** C2.  When the token of the request is not a key of the table,
    [responseHandler] throws the error "Could not find response callback
    for UUID <token>": no callback is called and the state is as before. *)
Theorem responseHandler_unbound_token (st : State) (req : Request) (res : Response) :
  idsToCallbacks st !! params_uuid req = None ->
  responseHandler params_uuid req res st
  = (Throw (Error ("Could not find response callback for UUID " +:+ params_uuid req)), st).
Proof. intros Hnone. unfold responseHandler. by rewrite Hnone. Qed.

(** C3.  On a bound token [responseHandler] calls the stored callback and
    returns the state it was given, so a second request with the token
    calls the callback again; and whatever calls of the module follow, the
    token is unbound afterwards only if one of them was an
    [unbindResponseUrl] of a URL whose last segment is the token. *)
Theorem responseHandler_keeps_binding (st : State) (req : Request) (res : Response)
    (entry : Entry) :
  idsToCallbacks st !! params_uuid req = Some entry ->
  responseHandler params_uuid req res st = (Ok (Invoke (response entry) req res), st)
  /\ (forall res' : Response,
        responseHandler params_uuid req res' (snd (responseHandler params_uuid req res st))
        = (Ok (Invoke (response entry) req res'), st))
  /\ (forall ops : list Op,
        idsToCallbacks (run params_uuid ops (snd (responseHandler params_uuid req res st)))
          !! params_uuid req = None ->
        exists u, In (OpUnbind (Some u)) ops
                  /\ JS.pop (JS.split u "/") = Some (params_uuid req)).
Proof.
  intros Hbound.
  assert (forall r : Response, responseHandler params_uuid req r st
                    = (Ok (Invoke (response entry) req r), st)) as Hcall.
  { intros r. unfold responseHandler. by rewrite Hbound. }
  split; [apply Hcall|]. rewrite Hcall. cbn [snd]. split; [apply Hcall|].
  intros ops. apply run_unbinds. by rewrite Hbound.
Qed.

End RegistryClaims.

(** C1 fails on the code.  With the base URL
    [http://localhost:3001/callback/] configured, [isUrlBound] is false on
    the URL [bindResponseUrl] has just returned, although the URL is
    registered: [UUID_REGEX] looks for the literal [/service/], where
    [unbindResponseUrl] takes the last segment of the URL. *)
Lemma bind_then_not_bound_off_service_route :
  exists st',
    Sample.bindResponseUrl Sample.callbackUUID "onComplete"
      (snd (Sample.configure "http://localhost:3001/callback/" Sample.initial))
    = (Ok "http://localhost:3001/callback/1b9d6bcd-bbfd-4b2d-9b5d-ab8dfbbd4bed", st')
    /\ ServiceResponse.isUrlBound
         "http://localhost:3001/callback/1b9d6bcd-bbfd-4b2d-9b5d-ab8dfbbd4bed" st' = false.
Proof. eexists. split; reflexivity. Qed.

Lemma responseHandler_unbound_token_witness :
  Sample.responseHandler Sample.callbackUUID
    (Sample.unbindResponseUrl Sample.boundUrl Sample.bound)
  = (Throw (Error "Could not find response callback for UUID 1b9d6bcd-bbfd-4b2d-9b5d-ab8dfbbd4bed"),
     Sample.unbindResponseUrl Sample.boundUrl Sample.bound).
Proof.
  apply (responseHandler_unbound_token (fun req : string => req)
           (Sample.unbindResponseUrl Sample.boundUrl Sample.bound) Sample.callbackUUID tt).
  reflexivity.
Defined.

Lemma responseHandler_keeps_binding_witness :
  Sample.responseHandler Sample.callbackUUID Sample.bound
  = (Ok (ServiceResponse.Invoke "onComplete" Sample.callbackUUID tt), Sample.bound).
Proof.
  apply (responseHandler_keeps_binding (fun req : string => req)
           Sample.bound Sample.callbackUUID tt
           {| ServiceResponse.response := "onComplete" |}).
  reflexivity.
Defined.

(** C4 fails on the code.  [configure] computes the base URL with its
    trailing slash ([newUrl]) but stores the argument as given; with
    [http://localhost:3001/service] the URL [bindResponseUrl] returns has
    no slash between the base URL and the token. *)
Theorem bindResponseUrl_without_separator :
  fst (Sample.bindResponseUrl Sample.callbackUUID "onComplete"
         (snd (Sample.configure "http://localhost:3001/service" Sample.initial)))
  = Ok "http://localhost:3001/service1b9d6bcd-bbfd-4b2d-9b5d-ab8dfbbd4bed".
Proof. reflexivity. Qed.

(** C5 fails on the code, for the same reason.  Configured without the
    trailing slash, a second [configure] with the same value throws; and
    configured with it, a [configure] with the value without the slash
    returns and replaces the stored base URL. *)
Theorem configure_again_throws_or_overwrites :
  fst (Sample.configure "http://localhost:3001/service"
         (snd (Sample.configure "http://localhost:3001/service" Sample.initial)))
  = Throw (Error ("ServiceResponse baseUrl http://localhost:3001/service"
                  +:+ " would be overwritten by http://localhost:3001/service"))
  /\ Sample.configure "http://localhost:3001/service"
       (snd (Sample.configure "http://localhost:3001/service/" Sample.initial))
     = (Ok tt, ServiceResponse.set_baseUrl "http://localhost:3001/service" Sample.initial).
Proof. split; reflexivity. Qed.

(** ** JSON text of an array of strings *)

Section JSONFacts.
Import JSON.

(** [unescape] reads back one escaped code unit. *)
Lemma unescape_escape (c : ascii) (rest : string) :
  unescape (escape c +:+ rest) = Some (c, rest).
Proof. destruct c as [[] [] [] [] [] [] [] []]; reflexivity. Qed.

Lemma unescape_quotation_mark (rest : string) :
  unescape (String quotation_mark rest) = None.
Proof. reflexivity. Qed.

(** The escaped text of a string, closed by a quotation mark, determines
    the string and what follows the mark. *)
Lemma escape_all_inj (s1 s2 t1 t2 : string) :
  escape_all s1 +:+ String quotation_mark t1 = escape_all s2 +:+ String quotation_mark t2 ->
  s1 = s2 /\ t1 = t2.
Proof.
  revert s2. induction s1 as [|c1 s1 IH]; intros [|c2 s2] Heq;
    cbn [escape_all] in Heq; apply (f_equal unescape) in Heq as Hhead;
    rewrite ?string_app_nil, ?string_app_assoc in Hhead, Heq;
    rewrite ?unescape_escape, ?unescape_quotation_mark in Hhead.
  - by injection Heq as ->.
  - done.
  - done.
  - injection Hhead as -> Hrest. by destruct (IH _ Hrest) as [-> ->].
Qed.

Lemma join_elements_tail (x : string) (arr : list string) :
  JS.join (map stringify_string (x :: arr)) "," +:+ "]"
  = stringify_string x +:+ elements_tail arr.
Proof.
  revert x. induction arr as [|y arr IH]; intros x; [done|].
  change (JS.join (map stringify_string (x :: y :: arr)) ",")
    with (stringify_string x +:+ "," +:+ JS.join (map stringify_string (y :: arr)) ",").
  rewrite !string_app_assoc, IH. done.
Qed.

Lemma stringify_string_inj (x1 x2 t1 t2 : string) :
  stringify_string x1 +:+ t1 = stringify_string x2 +:+ t2 -> x1 = x2 /\ t1 = t2.
Proof.
  unfold stringify_string. rewrite !string_app_cons, !string_app_assoc.
  intros Heq. apply string_cons_inj in Heq. by apply escape_all_inj.
Qed.

Lemma elements_tail_inj (arr1 arr2 : list string) :
  elements_tail arr1 = elements_tail arr2 -> arr1 = arr2.
Proof.
  revert arr2. induction arr1 as [|x1 arr1 IH]; intros [|x2 arr2] Heq; try done.
  change (String "," (stringify_string x1 +:+ elements_tail arr1)
          = String "," (stringify_string x2 +:+ elements_tail arr2)) in Heq.
  apply string_cons_inj in Heq.
  apply stringify_string_inj in Heq as [-> Htail]. f_equal. by apply IH.
Qed.

(** [JSON.stringify] maps different arrays of strings to different texts. *)
Lemma stringify_inj (arr1 arr2 : list string) :
  stringify arr1 = stringify arr2 -> arr1 = arr2.
Proof.
  unfold stringify. intros Heq.
  change (String "[" (JS.join (map stringify_string arr1) "," +:+ "]")
          = String "[" (JS.join (map stringify_string arr2) "," +:+ "]")) in Heq.
  apply string_cons_inj in Heq.
  destruct arr1 as [|x1 arr1], arr2 as [|x2 arr2]; try done.
  - rewrite join_elements_tail in Heq. done.
  - rewrite join_elements_tail in Heq. done.
  - rewrite !join_elements_tail in Heq.
    apply stringify_string_inj in Heq as [-> Htail]. f_equal.
    by apply elements_tail_inj.
Qed.

End JSONFacts.

(** ** Records *)

Section RecordFacts.
Import Models.

Context {Fields : Type} `{RecordConstructor Fields}.

Local Abbreviation Record_ := (Record_ Fields).
Local Abbreviation Statement := (Statement Fields).

(** [save] on a record that does not validate. *)
Lemma save_invalid (env : Env) (this : Record_) (tx : list Statement) (errors : list string) :
  validate this = Some errors ->
  save env this tx
  = (Throw (TypeError ("Job record is invalid: " +:+ JSON.stringify errors)), this, tx).
Proof. intros Herr. unfold save. by rewrite Herr. Qed.

(** [save] on a valid record without [createdAt]: the insert path. *)
Lemma save_new (env : Env) (this : Record_) (tx : list Statement) :
  validate this = None ->
  createdAt this = None ->
  save env this tx
  = match settles env with
    | Fulfilled value =>
        (Ok tt, set_id (head value) (stamped_new (now env) this),
         tx ++ [Insert table (stamped_new (now env) this) (returning_id env)])
    | RejectedWith reason =>
        (Throw reason, stamped_new (now env) this,
         tx ++ [Insert table (stamped_new (now env) this) (returning_id env)])
    end.
Proof.
  intros Hvalid Hnew. unfold save. rewrite Hvalid. cbn [set_updatedAt createdAt].
  rewrite Hnew. by destruct (settles env).
Qed.

(** [save] on a valid record with [createdAt]: the update path. *)
Lemma save_existing (env : Env) (this : Record_) (tx : list Statement) (created : Z) :
  validate this = None ->
  createdAt this = Some created ->
  save env this tx
  = (match settles env with
     | Fulfilled _ => Ok tt
     | RejectedWith reason => Throw reason
     end,
     stamped (now env) this,
     tx ++ [Update table (id this) (stamped (now env) this)]).
Proof.
  intros Hvalid Hold. unfold save. rewrite Hvalid. cbn [set_updatedAt createdAt].
  rewrite Hold. by destruct (settles env).
Qed.

(** The two timestamps after a [save] that returned. *)
Lemma save_ok_stamps (env : Env) (this this' : Record_) (tx tx' : list Statement) (u : unit) :
  save env this tx = (Ok u, this', tx') ->
  updatedAt this' = Some (now env) /\ createdAt this' = Some (created_stamp env this).
Proof.
  unfold created_stamp. intros Hsave.
  destruct (validate this) as [errors|] eqn:Hvalid.
  { by rewrite (save_invalid _ _ _ _ Hvalid) in Hsave. }
  destruct (createdAt this) as [created|] eqn:Hcreated.
  - rewrite (save_existing _ _ _ _ Hvalid Hcreated) in Hsave.
    injection Hsave as _ <- _. by cbn.
  - rewrite (save_new _ _ _ Hvalid Hcreated) in Hsave.
    destruct (settles env); [|done]. injection Hsave as _ <- _. by cbn.
Qed.

(** When every call of a run returned, the record after the [i]-th call
    carries the clock reading of that call in [updatedAt], and the
    [createdAt] left by the first. *)
Lemma saves_stamps (envs : list Env) (this : Record_) (tx : list Statement)
    (trace : list Record_) (final : Record_ * list Statement) :
  saves envs this tx = (trace, final) ->
  length trace = length envs ->
  updatedAt <$> trace = (fun env => Some (now env)) <$> envs
  /\ forall env0 r, head envs = Some env0 -> In r trace ->
       createdAt r = Some (created_stamp env0 this).
Proof.
  revert this tx trace final.
  induction envs as [|env envs IH]; intros this tx trace final Hrun Hlen.
  - cbn in Hrun. injection Hrun as <- _. by split.
  - cbn [saves] in Hrun.
    destruct (save env this tx) as [[[u|e] this'] tx'] eqn:Hsave.
    2:{ injection Hrun as <- _. done. }
    destruct (saves envs this' tx') as [trace' final'] eqn:Hrest.
    injection Hrun as <- _. cbn in Hlen.
    destruct (save_ok_stamps _ _ _ _ _ _ Hsave) as [Hupdated Hcreated].
    destruct (IH _ _ _ _ Hrest ltac:(lia)) as [IHupdated IHcreated].
    split; [rewrite !fmap_cons; by rewrite Hupdated, IHupdated|].
    intros env0 r [= <-] [<-|Hr]; [done|].
    destruct envs as [|env1 envs]; [cbn in Hrest; by injection Hrest as <- _|].
    rewrite (IHcreated env1 r eq_refl Hr).
    unfold created_stamp at 1. by rewrite Hcreated.
Qed.

End RecordFacts.

Section RecordClaims.
Import Models.

Context {Fields : Type} `{RecordConstructor Fields}.

Local Abbreviation Record_ := (Record_ Fields).
Local Abbreviation Statement := (Statement Fields).

(** C6, as amended.  [save] on a valid record without [createdAt],
    whatever its [id], when the database answers the insert with a new id:
    one [Insert] statement reaches the transaction, and the record comes
    back with that id and with [createdAt] and [updatedAt] at the clock
    reading of the call.  A second [save] on that record, valid again: one
    [Update] statement, keyed by the id; [createdAt] and [id] are as before
    and [updatedAt] is at the clock reading of the second call, which is
    later than the first stamp exactly when the clock has advanced.  In
    general a call on a valid record adds exactly one statement to the
    transaction, and [createdAt] alone decides which: the insert when it is
    unset, the update otherwise. *)
Theorem save_inserts_then_updates (env1 env2 : Env) (this : Record_)
    (tx : list Statement) (new_id : Z) (ids value2 : list Z) :
  validate this = None ->
  createdAt this = None ->
  settles env1 = Fulfilled (new_id :: ids) ->
  validate (set_id (Some new_id) (stamped_new (now env1) this)) = None ->
  settles env2 = Fulfilled value2 ->
  exists (this1 this2 : Record_) (tx1 : list Statement),
    tx1 = tx ++ [Insert table (stamped_new (now env1) this) (returning_id env1)]
    /\ save env1 this tx = (Ok tt, this1, tx1)
    /\ id this1 = Some new_id
    /\ createdAt this1 = Some (now env1)
    /\ updatedAt this1 = Some (now env1)
    /\ fields this1 = fields this
    /\ save env2 this1 tx1 = (Ok tt, this2, tx1 ++ [Update table (Some new_id) this2])
    /\ createdAt this2 = createdAt this1
    /\ updatedAt this2 = Some (now env2)
    /\ (forall t1 t2 : Z,
          updatedAt this1 = Some t1 -> updatedAt this2 = Some t2 ->
          (t1 < t2 <-> now env1 < now env2))
    /\ id this2 = id this1
    /\ fields this2 = fields this1
    /\ forall (env : Env) (r : Record_) (t : list Statement),
         validate r = None ->
         snd (save env r t)
         = t ++ [match createdAt r with
                 | None => Insert table (stamped_new (now env) r) (returning_id env)
                 | Some _ => Update table (id r) (stamped (now env) r)
                 end].
Proof.
  intros Hvalid Hnew Hinsert Hvalid1 Hupdate.
  eexists _, _, _. split; [reflexivity|].
  split; [by rewrite (save_new _ _ _ Hvalid Hnew), Hinsert|].
  do 4 (split; [reflexivity|]).
  split; [by rewrite (save_existing _ _ _ (now env1) Hvalid1 eq_refl), Hupdate|].
  do 2 (split; [reflexivity|]).
  split; [by intros t1 t2 [= <-] [= <-]|].
  do 2 (split; [reflexivity|]).
  intros env r t Hr. destruct (createdAt r) as [created|] eqn:Hcreated.
  - by rewrite (save_existing _ _ _ _ Hr Hcreated).
  - rewrite (save_new _ _ _ Hr Hcreated). by destruct (settles env).
Qed.

(** C7, as amended.  When [validate] returns a list of errors, [save]
    throws a [TypeError] whose message is "Job record is invalid: "
    followed by the JSON text of the list; no other list gives that
    message. *)
Theorem save_invalid_throws_TypeError (env : Env) (this : Record_)
    (tx : list Statement) (errors : list string) :
  validate this = Some errors ->
  fst (fst (save env this tx))
  = Throw (TypeError ("Job record is invalid: " +:+ JSON.stringify errors))
  /\ forall errors' : list string,
       "Job record is invalid: " +:+ JSON.stringify errors'
       = "Job record is invalid: " +:+ JSON.stringify errors ->
       errors' = errors.
Proof.
  intros Herr. split; [by rewrite (save_invalid _ _ _ _ Herr)|].
  intros errors' Hmsg. apply stringify_inj. by apply (inj (String.app _)) in Hmsg.
Qed.

(** C8, as amended.  Take a run of [save] calls on one record in which
    every call returned.  Every record of the run has in [createdAt] the
    time the first call left there (the one the record came with, or else
    the clock reading of the first call).  After each call [updatedAt] is
    the clock reading of that call, so that from one call to the next it
    decreases exactly when the clock reading does. *)
Theorem saves_keep_createdAt_and_stamp_updatedAt (envs : list Env) (this : Record_)
    (tx : list Statement) (trace : list Record_) (final : Record_ * list Statement) :
  saves envs this tx = (trace, final) ->
  length trace = length envs ->
  (forall (env0 : Env) (r : Record_),
      head envs = Some env0 -> In r trace ->
      createdAt r = Some (created_stamp env0 this))
  /\ (forall (i : nat) (r r' : Record_),
        trace !! i = Some r -> trace !! S i = Some r' ->
        exists (e e' : Env) (t t' : Z),
          envs !! i = Some e /\ envs !! S i = Some e'
          /\ updatedAt r = Some t /\ updatedAt r' = Some t'
          /\ t = now e /\ t' = now e'
          /\ (t' < t <-> now e' < now e)).
Proof.
  intros Hrun Hlen.
  destruct (saves_stamps _ _ _ _ _ Hrun Hlen) as [Hupdated Hcreated].
  split; [done|]. intros i r r' Hr Hr'.
  assert (forall j x, trace !! j = Some x ->
            exists e, envs !! j = Some e /\ updatedAt x = Some (now e)) as Hat.
  { intros j x Hx. apply (f_equal (fun l => l !! j)) in Hupdated.
    rewrite !list_lookup_fmap, Hx in Hupdated.
    destruct (envs !! j) as [e|]; [|done]. exists e. split; [done|].
    by injection Hupdated. }
  destruct (Hat _ _ Hr) as (e & He & ->), (Hat _ _ Hr') as (e' & He' & ->).
  by exists e, e', (now e), (now e').
Qed.

(** C9.  When [validate] returns a list of errors, [save] throws with the
    record and the transaction exactly as they were passed in: no field
    is written and no statement is issued. *)
Theorem save_invalid_changes_nothing (env : Env) (this : Record_)
    (tx : list Statement) (errors : list string) :
  validate this = Some errors ->
  exists e : exn, save env this tx = (Throw e, this, tx).
Proof. intros Herr. eexists. by apply save_invalid. Qed.

End RecordClaims.

(** ** Variables of a coverages request *)

Section CoveragesClaims.
Import Coverages.

Context {CmrUmmVariable : Type}.
Context (umm_Name : CmrUmmVariable -> string).

Local Abbreviation CmrCollection := (@CmrCollection CmrUmmVariable).

Lemma includes_In (arr : list string) (x : string) :
  JS.includes arr x = true <-> In x arr.
Proof.
  unfold JS.includes, JS.eqb. rewrite existsb_exists. split.
  - intros (y & Hy & Heq). apply bool_decide_eq_true in Heq. by subst.
  - intros Hx. exists x. split; [done|]. by apply bool_decide_eq_true.
Qed.

(** C10.  When the comma-separated ids of [collectionIdParam] include
    [all] and there are two or more of them, [parseVariables] throws the
    [RequestValidationError] that says [all] cannot be specified alongside
    other variables, whatever the collections; it returns no list. *)
Theorem parseVariables_all_not_alone (eosdisCollections : list CmrCollection)
    (collectionIdParam : string) :
  In "all" (JS.split collectionIdParam ",") ->
  (2 <= length (JS.split collectionIdParam ","))%nat ->
  parseVariables umm_Name eosdisCollections collectionIdParam
  = Throw (RequestValidationError all_alone_message).
Proof.
  intros Hall Hmore. unfold parseVariables.
  rewrite (proj2 (includes_In _ _) Hall).
  destruct (Nat.eqb_spec (length (JS.split collectionIdParam ",")) 1) as [Hone|_];
    [lia | done].
Qed.

End CoveragesClaims.

(** ** The theorems at concrete values *)

Lemma save_inserts_then_updates_witness :
  exists (this1 this2 : Sample.Job) (tx1 : list (Models.Statement string)),
    tx1 = [Models.Insert "jobs" (Models.stamped_new 1000 (Sample.job "alice")) (Some "id")]
    /\ Models.save (Sample.at_time 1000 [7]) (Sample.job "alice") [] = (Ok tt, this1, tx1)
    /\ Models.id this1 = Some 7
    /\ Models.createdAt this1 = Some 1000
    /\ Models.updatedAt this1 = Some 1000
    /\ Models.fields this1 = "alice"
    /\ Models.save (Sample.at_time 2000 [1]) this1 tx1
       = (Ok tt, this2, tx1 ++ [Models.Update "jobs" (Some 7) this2])
    /\ Models.createdAt this2 = Models.createdAt this1
    /\ Models.updatedAt this2 = Some 2000
    /\ (forall t1 t2 : Z,
          Models.updatedAt this1 = Some t1 -> Models.updatedAt this2 = Some t2 ->
          (t1 < t2 <-> 1000 < 2000))
    /\ Models.id this2 = Models.id this1
    /\ Models.fields this2 = Models.fields this1
    /\ forall (env : Models.Env) (r : Sample.Job) (t : list (Models.Statement string)),
         Models.validate r = None ->
         snd (Models.save env r t)
         = t ++ [match Models.createdAt r with
                 | None => Models.Insert "jobs" (Models.stamped_new (Models.now env) r)
                             (Models.returning_id env)
                 | Some _ => Models.Update "jobs" (Models.id r)
                               (Models.stamped (Models.now env) r)
                 end].
Proof.
  exact (save_inserts_then_updates (Sample.at_time 1000 [7]) (Sample.at_time 2000 [1])
           (Sample.job "alice") [] 7 [] [1] eq_refl eq_refl eq_refl eq_refl eq_refl).
Defined.

(** C6 as stated fails, on two counts.  A second [save] whose clock
    reading is earlier than the first one's returns and moves [updatedAt]
    back, from 2000 to 1500: it does not advance it.  And a valid record
    that has an [id] but no [createdAt] is inserted, not updated:
    [createdAt] alone decides, not the identity fields together. *)
Lemma save_moves_updatedAt_back_and_inserts_with_id :
  Models.save (Sample.at_time 2000 [7]) (Sample.job "alice") []
  = (Ok tt, Models.set_id (Some 7) (Models.stamped_new 2000 (Sample.job "alice")),
     [Models.Insert "jobs" (Models.stamped_new 2000 (Sample.job "alice")) (Some "id")])
  /\ Models.updatedAt
       (Models.set_id (Some 7) (Models.stamped_new 2000 (Sample.job "alice"))) = Some 2000
  /\ fst (Models.save (Sample.at_time 1500 [1])
            (Models.set_id (Some 7) (Models.stamped_new 2000 (Sample.job "alice")))
            [Models.Insert "jobs" (Models.stamped_new 2000 (Sample.job "alice"))
               (Some "id")])
     = (Ok tt,
        Models.stamped 1500
          (Models.set_id (Some 7) (Models.stamped_new 2000 (Sample.job "alice"))))
  /\ Models.updatedAt
       (Models.stamped 1500
          (Models.set_id (Some 7) (Models.stamped_new 2000 (Sample.job "alice"))))
     = Some 1500
  /\ Models.id (Sample.job_with_id 5 "alice") = Some 5
  /\ snd (Models.save (Sample.at_time 1000 [7]) (Sample.job_with_id 5 "alice") [])
     = [Models.Insert "jobs" (Models.stamped_new 1000 (Sample.job_with_id 5 "alice"))
          (Some "id")].
Proof. repeat split. Qed.

Lemma save_invalid_throws_TypeError_witness :
  fst (fst (Models.save (Sample.at_time 1000 [7]) (Sample.job "") []))
  = Throw (TypeError ("Job record is invalid: " +:+ JSON.stringify ["username is required"]))
  /\ forall errors' : list string,
       "Job record is invalid: " +:+ JSON.stringify errors'
       = "Job record is invalid: " +:+ JSON.stringify ["username is required"] ->
       errors' = ["username is required"].
Proof.
  apply (save_invalid_throws_TypeError (Sample.at_time 1000 [7]) (Sample.job "") []
           ["username is required"]).
  reflexivity.
Defined.

(** C7 as stated fails: what [save] throws on a record that does not
    validate is a [TypeError], built from a message alone; it is not an
    error of the validation class, [RequestValidationError]. *)
Lemma save_invalid_is_not_a_validation_error :
  fst (fst (Models.save (Sample.at_time 1000 [7]) (Sample.job "") []))
  = Throw (TypeError
             ("Job record is invalid: ["
              +:+ String JSON.quotation_mark
                    ("username is required" +:+ String JSON.quotation_mark "]")))
  /\ forall message : string,
       fst (fst (Models.save (Sample.at_time 1000 [7]) (Sample.job "") []))
       <> Throw (RequestValidationError message).
Proof. split; [reflexivity | discriminate]. Qed.

Lemma saves_keep_createdAt_and_stamp_updatedAt_witness :
  (forall (env0 : Models.Env) (r : Sample.Job),
      head [Sample.at_time 1000 [7]; Sample.at_time 2000 [1]; Sample.at_time 2000 [1]]
      = Some env0 ->
      In r (fst (Models.saves
                   [Sample.at_time 1000 [7]; Sample.at_time 2000 [1]; Sample.at_time 2000 [1]]
                   (Sample.job "alice") [])) ->
      Models.createdAt r = Some (Models.created_stamp env0 (Sample.job "alice")))
  /\ (forall (i : nat) (r r' : Sample.Job),
        fst (Models.saves
               [Sample.at_time 1000 [7]; Sample.at_time 2000 [1]; Sample.at_time 2000 [1]]
               (Sample.job "alice") []) !! i = Some r ->
        fst (Models.saves
               [Sample.at_time 1000 [7]; Sample.at_time 2000 [1]; Sample.at_time 2000 [1]]
               (Sample.job "alice") []) !! S i = Some r' ->
        exists (e e' : Models.Env) (t t' : Z),
          [Sample.at_time 1000 [7]; Sample.at_time 2000 [1]; Sample.at_time 2000 [1]] !! i
          = Some e
          /\ [Sample.at_time 1000 [7]; Sample.at_time 2000 [1]; Sample.at_time 2000 [1]]
               !! S i = Some e'
          /\ Models.updatedAt r = Some t /\ Models.updatedAt r' = Some t'
          /\ t = Models.now e /\ t' = Models.now e'
          /\ (t' < t <-> Models.now e' < Models.now e)).
Proof.
  exact (saves_keep_createdAt_and_stamp_updatedAt
           [Sample.at_time 1000 [7]; Sample.at_time 2000 [1]; Sample.at_time 2000 [1]]
           (Sample.job "alice") [] _ _ eq_refl eq_refl).
Defined.

(** C8 as stated fails: when the clock reads 2000 at the first [save] and
    1500 at the second, both calls return and [updatedAt] goes from 2000
    back to 1500. *)
Lemma saves_updatedAt_decreases_with_the_clock :
  Models.updatedAt
    <$> fst (Models.saves [Sample.at_time 2000 [7]; Sample.at_time 1500 [1]]
               (Sample.job "alice") [])
  = [Some 2000; Some 1500].
Proof. reflexivity. Qed.

Lemma save_invalid_changes_nothing_witness :
  exists e : exn,
    Models.save (Sample.at_time 1000 [7]) (Sample.job "") [] = (Throw e, Sample.job "", []).
Proof.
  apply (save_invalid_changes_nothing (Sample.at_time 1000 [7]) (Sample.job "") []
           ["username is required"]).
  reflexivity.
Defined.

Lemma parseVariables_all_not_alone_witness :
  Coverages.parseVariables (fun name : string => name)
    [{| Coverages.id := "C1233800302-EEDTEST"; Coverages.variables := ["red_var"; "green_var"] |}]
    "all,red_var"
  = Throw (RequestValidationError Coverages.all_alone_message).
Proof.
  apply (parseVariables_all_not_alone (fun name : string => name)).
  - left. reflexivity.
  - vm_compute. lia.
Defined.

(** * Further properties *)

(** ** The callback registry: configuration *)

Section RegistryConfiguration.
Import ServiceResponse.

Context {Handler Request Response : Type}.
Context (params_uuid : Request -> string).

Local Abbreviation State := (@State Handler).
Local Abbreviation Op := (@Op Handler Request Response).

Lemma string_app_empty (s : string) : s +:+ EmptyString = s.
Proof.
  induction s as [|a s IH]; [reflexivity|]. by rewrite string_app_cons, IH.
Qed.

Lemma endsWith_app (s : string) (c : ascii) :
  JS.endsWith (s +:+ String c EmptyString) c = true.
Proof.
  induction s as [|a s IH].
  - rewrite string_app_nil. cbn. by apply char_eqb_eq.
  - rewrite string_app_cons. cbn [JS.endsWith].
    destruct (s +:+ String c EmptyString) eqn:Hs; [|done].
    apply (f_equal String.length) in Hs. rewrite string_app_length in Hs.
    cbn in Hs. lia.
Qed.

Lemma endsWith_true (s : string) (c : ascii) :
  JS.endsWith s c = true -> exists pre, s = pre +:+ String c EmptyString.
Proof.
  induction s as [|a s IH]; [done|]. cbn [JS.endsWith]. destruct s as [|b s].
  - intros ->%char_eqb_eq. by exists EmptyString.
  - intros Hs. destruct (IH Hs) as [pre ->]. by exists (String a pre).
Qed.

Lemma with_trailing_slash_endsWith (b : string) :
  JS.endsWith (with_trailing_slash b) "/" = true.
Proof.
  unfold with_trailing_slash. destruct (JS.endsWith b "/") eqn:Hb.
  - by rewrite string_app_empty.
  - apply endsWith_app.
Qed.

Lemma with_trailing_slash_fixed (b : string) :
  JS.endsWith b "/" = true -> with_trailing_slash b = b.
Proof. unfold with_trailing_slash. intros ->. apply string_app_empty. Qed.

(** One call keeps the module unconfigured unless it is a [configure] with
    a truthy URL. *)
Lemma step_unconfigured (op : Op) (st : State) :
  JS.truthy (baseUrl (config st)) = None ->
  sets_baseUrl op = false ->
  JS.truthy (baseUrl (config (step params_uuid op st))) = None.
Proof.
  intros Hst Hop. destruct op as [b|u h|url|url|req res]; cbn [step].
  - unfold configure. cbn in Hop. destruct (JS.truthy b) as [b'|]; [|done].
    by rewrite bool_decide_eq_false in Hop; destruct Hop.
  - unfold bindResponseUrl. by rewrite Hst.
  - unfold unbindResponseUrl. destruct (JS.truthy url); [|done]. by destruct (JS.pop _).
  - done.
  - by rewrite responseHandler_state.
Qed.

(** One call keeps the stored base URL up to its trailing slash. *)
Lemma step_baseUrl (op : Op) (st : State) (base : string) :
  JS.truthy (baseUrl (config st)) = Some base ->
  exists base',
    JS.truthy (baseUrl (config (step params_uuid op st))) = Some base'
    /\ with_trailing_slash base' = with_trailing_slash base.
Proof.
  intros Hst. destruct op as [b|u h|url|url|req res]; cbn [step].
  - unfold configure. destruct (JS.truthy b) as [b'|] eqn:Hb; [|by exists base].
    rewrite Hst. fold (with_trailing_slash b').
    destruct (JS.eqb base (with_trailing_slash b')) eqn:Heq; cbn [negb];
      [|by exists base].
    apply bool_decide_eq_true in Heq. exists b'. split.
    + cbn. destruct b as [[|a b]|]; cbn in Hb; by simplify_eq.
    + rewrite Heq. symmetry. apply with_trailing_slash_fixed,
        with_trailing_slash_endsWith.
  - unfold bindResponseUrl. rewrite Hst. by exists base.
  - unfold unbindResponseUrl. destruct (JS.truthy url); [|by exists base].
    destruct (JS.pop _); by exists base.
  - by exists base.
  - rewrite responseHandler_state. by exists base.
Qed.

(** X1.  As long as no [configure] with a truthy URL has been called,
    whatever other calls were made, [bindResponseUrl] throws the error that
    asks for [configure] and leaves the state as it is. *)
Theorem bindResponseUrl_before_configure (ops : list Op) (st : State)
    (callbackUUID : string) (responseCallback : Handler) :
  JS.truthy (baseUrl (config st)) = None ->
  Forall (fun op => sets_baseUrl op = false) ops ->
  bindResponseUrl callbackUUID responseCallback (run params_uuid ops st)
  = (Throw (Error "Call configure({ baseUrl }) before calling bindResponseUrl"),
     run params_uuid ops st).
Proof.
  intros Hst Hops.
  assert (JS.truthy (baseUrl (config (run params_uuid ops st))) = None) as Hrun.
  { revert st Hst. induction Hops as [|op ops Hop _ IH]; intros st Hst; [done|].
    cbn. apply IH. by apply step_unconfigured. }
  unfold bindResponseUrl. by rewrite Hrun.
Qed.

(** X2.  Once a base URL is stored, every sequence of calls of the module
    leaves a base URL stored, and it is the same one up to a trailing
    slash: [configure] can never move the callbacks to another base URL. *)
Theorem baseUrl_kept_up_to_trailing_slash (ops : list Op) (st : State) (base : string) :
  JS.truthy (baseUrl (config st)) = Some base ->
  exists base',
    JS.truthy (baseUrl (config (run params_uuid ops st))) = Some base'
    /\ with_trailing_slash base' = with_trailing_slash base.
Proof.
  revert st base. induction ops as [|op ops IH]; intros st base Hst.
  - by exists base.
  - cbn. destruct (step_baseUrl op st base Hst) as (base1 & Hstep & Heq1).
    destruct (IH _ _ Hstep) as (base' & Hrun & Heq). exists base'.
    split; [done|]. by rewrite Heq.
Qed.

End RegistryConfiguration.

(** ** The callback registry: bindings *)

Section RegistryBindings.
Import ServiceResponse.

Context {Handler Request Response : Type}.
Context (params_uuid : Request -> string).

Local Abbreviation State := (@State Handler).

Lemma unbindResponseUrl_config (url : option string) (st : State) :
  config (unbindResponseUrl url st) = config st.
Proof.
  unfold unbindResponseUrl. destruct (JS.truthy url); [|done]. by destruct (JS.pop _).
Qed.

Lemma State_eq (st st' : State) :
  config st = config st' -> idsToCallbacks st = idsToCallbacks st' -> st = st'.
Proof. destruct st, st'. cbn. by intros -> ->. Qed.

(** The outcome of [responseHandler] depends on the state through the
    entry of the request's token only. *)
Lemma responseHandler_outcome (req : Request) (res : Response) (st : State) :
  fst (responseHandler params_uuid req res st)
  = match idsToCallbacks st !! params_uuid req with
    | Some entry => Ok (Invoke (response entry) req res)
    | None => Throw (Error ("Could not find response callback for UUID "
                            +:+ params_uuid req))
    end.
Proof. unfold responseHandler. by destruct (_ !! _). Qed.

(** X3.  In a configured module, a request that carries the token of a
    [bindResponseUrl] call reaches the callback given to that call:
    [responseHandler] calls it with the request and the response, and
    keeps the binding. *)
Theorem responseHandler_after_bind (st : State) (callbackUUID base : string)
    (responseCallback : Handler) (req : Request) (res : Response) :
  JS.truthy (baseUrl (config st)) = Some base ->
  params_uuid req = callbackUUID ->
  responseHandler params_uuid req res (snd (bindResponseUrl callbackUUID responseCallback st))
  = (Ok (Invoke responseCallback req res),
     snd (bindResponseUrl callbackUUID responseCallback st)).
Proof.
  intros Hbase Hreq. unfold responseHandler.
  rewrite bindResponseUrl_table, Hbase, Hreq. by rewrite lookup_insert_eq.
Qed.

(** X4.  Binding a token, and unbinding a URL whose last segment is
    another token, change nothing for a request with a different token:
    [responseHandler] answers it as before. *)
Theorem other_tokens_untouched (st : State) (req : Request) (res : Response)
    (callbackUUID url : string) (responseCallback : Handler) :
  params_uuid req <> callbackUUID ->
  JS.pop (JS.split url "/") <> Some (params_uuid req) ->
  fst (responseHandler params_uuid req res
         (snd (bindResponseUrl callbackUUID responseCallback st)))
  = fst (responseHandler params_uuid req res st)
  /\ fst (responseHandler params_uuid req res (unbindResponseUrl (Some url) st))
     = fst (responseHandler params_uuid req res st).
Proof.
  intros Hbind Hunbind. rewrite !responseHandler_outcome. split.
  - rewrite bindResponseUrl_table. destruct (JS.truthy _); [|done].
    by rewrite lookup_insert_ne.
  - rewrite unbindResponseUrl_table. destruct url as [|a url]; [done|].
    destruct (JS.pop _) as [id|]; [|done].
    rewrite lookup_delete_ne; [done | congruence].
Qed.

(** X5.  With a stored base URL that ends in a slash and a fresh token
    without slash, [unbindResponseUrl] on the URL that [bindResponseUrl]
    returned undoes the binding: the module is back in the state before
    the [bindResponseUrl]. *)
Theorem unbind_after_bind_restores (st : State) (callbackUUID base : string)
    (responseCallback : Handler) :
  baseUrl (config st) = Some base ->
  JS.endsWith base "/" = true ->
  JS.occurs "/" callbackUUID = false ->
  idsToCallbacks st !! callbackUUID = None ->
  bindResponseUrl callbackUUID responseCallback st
  = (Ok (base +:+ callbackUUID),
     snd (bindResponseUrl callbackUUID responseCallback st))
  /\ unbindResponseUrl (Some (base +:+ callbackUUID))
       (snd (bindResponseUrl callbackUUID responseCallback st)) = st.
Proof.
  intros Hbase Hslash Htoken Hfresh.
  destruct (endsWith_true _ _ Hslash) as [pre ->].
  assert (JS.truthy (Some (pre +:+ String "/" EmptyString))
          = Some (pre +:+ String "/" EmptyString)) as Htruthy.
  { destruct pre; [reflexivity|]. by rewrite string_app_cons. }
  split; [unfold bindResponseUrl; by rewrite Hbase, Htruthy|].
  apply State_eq.
  - rewrite unbindResponseUrl_config. unfold bindResponseUrl.
    by rewrite Hbase, Htruthy.
  - rewrite unbindResponseUrl_table, bindResponseUrl_table, Hbase, Htruthy.
    rewrite string_app_assoc.
    change (String "/" EmptyString +:+ callbackUUID) with (String "/" callbackUUID).
    rewrite (pop_split_last_segment _ _ _ Htoken).
    destruct (pre +:+ String "/" callbackUUID) eqn:Hurl.
    + apply (f_equal String.length) in Hurl. rewrite string_app_length in Hurl.
      cbn in Hurl. lia.
    + rewrite delete_insert_eq. by apply delete_id.
Qed.

(** X6.  [unbindResponseUrl] is idempotent, and two of them can be made in
    either order. *)
Theorem unbindResponseUrl_idempotent_commutative (st : State) (url url' : option string) :
  unbindResponseUrl url (unbindResponseUrl url st) = unbindResponseUrl url st
  /\ unbindResponseUrl url (unbindResponseUrl url' st)
     = unbindResponseUrl url' (unbindResponseUrl url st).
Proof.
  assert (forall (u : option string) (s : State),
            idsToCallbacks (unbindResponseUrl u s)
            = match JS.truthy u with
              | Some v => match JS.pop (JS.split v "/") with
                          | Some id => delete id (idsToCallbacks s)
                          | None => idsToCallbacks s
                          end
              | None => idsToCallbacks s
              end) as Htable.
  { intros u s. unfold unbindResponseUrl. destruct (JS.truthy u); [|done].
    by destruct (JS.pop _). }
  split; apply State_eq; rewrite ?unbindResponseUrl_config; try done;
    rewrite !Htable.
  - destruct (JS.truthy url); [|done]. destruct (JS.pop _); [|done].
    apply delete_id, lookup_delete_eq.
  - destruct (JS.truthy url) as [u|], (JS.truthy url') as [u'|]; try done.
    destruct (JS.pop (JS.split u "/")), (JS.pop (JS.split u' "/")); try done.
    apply delete_delete.
Qed.

End RegistryBindings.

(** ** Records: what [save] writes and what it leaves alone *)

Section RecordRuns.
Import Models.

Context {Fields : Type} `{RecordConstructor Fields}.

Local Abbreviation Record_ := (Record_ Fields).
Local Abbreviation Statement := (Statement Fields).

(** The three shapes of one [save]: nothing written, one insert, one
    update; the record keeps its own fields in each. *)
Lemma save_shape (env : Env) (this : Record_) (tx : list Statement) :
  exists (outcome : result unit) (this' : Record_) (new : list Statement),
    save env this tx = (outcome, this', tx ++ new)
    /\ fields this' = fields this
    /\ (length new <= 1)%nat
    /\ Forall (fun stmt => statement_table stmt = table) new.
Proof.
  destruct (validate this) as [errors|] eqn:Hvalid.
  { rewrite (save_invalid _ _ _ _ Hvalid). eexists _, _, []. rewrite app_nil_r.
    repeat split; [cbn; lia | constructor]. }
  destruct (createdAt this) as [created|] eqn:Hcreated.
  - rewrite (save_existing _ _ _ _ Hvalid Hcreated). eexists _, _, [_].
    repeat split; [cbn; lia | by repeat constructor].
  - rewrite (save_new _ _ _ Hvalid Hcreated).
    destruct (settles env); eexists _, _, [_];
      (repeat split; [cbn; lia | by repeat constructor]).
Qed.

(** In a run, the calls after one that left [createdAt] set are updates
    keyed by the id the record has then. *)
Lemma saves_existing (envs : list Env) (this : Record_) (tx : list Statement)
    (trace : list Record_) (final : Record_ * list Statement) (created : Z) :
  saves envs this tx = (trace, final) ->
  length trace = length envs ->
  createdAt this = Some created ->
  snd final = tx ++ map (fun r => Update table (id this) r) trace.
Proof.
  revert this tx trace final.
  induction envs as [|env envs IH]; intros this tx trace final Hrun Hlen Hcreated.
  - cbn in Hrun. injection Hrun as <- <-. cbn. by rewrite app_nil_r.
  - cbn [saves] in Hrun.
    destruct (validate this) as [errors|] eqn:Hvalid.
    { rewrite (save_invalid _ _ _ _ Hvalid) in Hrun. by injection Hrun as <- _. }
    rewrite (save_existing _ _ _ _ Hvalid Hcreated) in Hrun.
    destruct (settles env); [|by injection Hrun as <- _].
    destruct (saves envs _ _) as [trace' final'] eqn:Hrest.
    injection Hrun as <- <-. cbn in Hlen.
    rewrite (IH _ _ _ _ Hrest ltac:(lia) Hcreated). cbn.
    by rewrite <- app_assoc.
Qed.

(** X7.  When the insert of a new record is rejected, [save] rethrows the
    reason but has already stamped the record: [createdAt] is set although
    no row was stored.  A later [save] of that record, if it validates,
    therefore issues an update, keyed by the id the record had before, and
    no second insert. *)
Theorem save_after_rejected_insert_updates (env1 env2 : Env) (this : Record_)
    (tx : list Statement) (reason : exn) :
  validate this = None ->
  createdAt this = None ->
  settles env1 = RejectedWith reason ->
  validate (stamped_new (now env1) this) = None ->
  exists tx1 : list Statement,
    save env1 this tx = (Throw reason, stamped_new (now env1) this, tx1)
    /\ tx1 = tx ++ [Insert table (stamped_new (now env1) this) (returning_id env1)]
    /\ snd (save env2 (stamped_new (now env1) this) tx1)
       = tx1 ++ [Update table (id this)
                   (stamped (now env2) (stamped_new (now env1) this))].
Proof.
  intros Hvalid Hnew Hrejected Hvalid1. eexists. split; [|split; [reflexivity|]].
  - by rewrite (save_new _ _ _ Hvalid Hnew), Hrejected.
  - by rewrite (save_existing _ _ _ (now env1) Hvalid1 eq_refl).
Qed.

(** X8.  [save] never touches the fields a subclass declares: after any
    run of calls, returned or thrown, every record of the run and the
    record at the end have the fields the first call was given. *)
Theorem saves_keep_fields (envs : list Env) (this : Record_) (tx : list Statement) :
  Forall (fun r => fields r = fields this) (fst (saves envs this tx))
  /\ fields (fst (snd (saves envs this tx))) = fields this.
Proof.
  revert this tx. induction envs as [|env envs IH]; intros this tx; [by split|].
  cbn [saves]. destruct (save_shape env this tx) as (outcome & this' & new & -> & Hf & _).
  destruct outcome as [u|e]; [|by split].
  destruct (IH this' (tx ++ new)) as [IHtrace IHfinal].
  destruct (saves envs this' (tx ++ new)) as [trace final]. cbn in *.
  split; [|congruence]. constructor; [done|].
  eapply Forall_impl; [exact IHtrace|]. cbn. congruence.
Qed.

(** X9.  A run of [save] calls only adds to the transaction: the
    statements it was given stay in front, at most one statement is added
    per call, and every added statement is on the table of the class. *)
Theorem saves_only_add_statements (envs : list Env) (this : Record_)
    (tx : list Statement) :
  exists new : list Statement,
    snd (snd (saves envs this tx)) = tx ++ new
    /\ (length new <= length envs)%nat
    /\ Forall (fun stmt => statement_table stmt = table) new.
Proof.
  revert this tx. induction envs as [|env envs IH]; intros this tx.
  { exists []. cbn. rewrite app_nil_r. repeat split; [lia | constructor]. }
  cbn [saves].
  destruct (save_shape env this tx) as (outcome & this' & new & -> & _ & Hlen & Htable).
  destruct outcome as [u|e].
  - destruct (IH this' (tx ++ new)) as (new' & Hrest & Hlen' & Htable').
    destruct (saves envs this' (tx ++ new)) as [trace final]. cbn in *.
    exists (new ++ new'). rewrite Hrest, app_assoc, length_app.
    repeat split; [lia | by apply Forall_app].
  - exists new. cbn. repeat split; [lia | done].
Qed.

(** X10.  With the [validate] inherited from [Record], [save] throws only
    what the database rejects the statement with, and returns whenever the
    statement is fulfilled. *)
Theorem save_inherited_validate (env : Env) (this : Record_) (tx : list Statement) :
  (forall r : Record_, validate r = Record_validate r) ->
  fst (fst (save env this tx))
  = match settles env with
    | Fulfilled _ => Ok tt
    | RejectedWith reason => Throw reason
    end.
Proof.
  intros Hinherited. pose proof (Hinherited this) as Hvalid. unfold Record_validate in Hvalid.
  destruct (createdAt this) as [created|] eqn:Hcreated.
  - by rewrite (save_existing _ _ _ _ Hvalid Hcreated).
  - rewrite (save_new _ _ _ Hvalid Hcreated). by destruct (settles env).
Qed.

(** X11.  In a run of calls on a new record that all returned, the first
    call issues the only insert; every later call issues an update of the
    record as that call stamped it, keyed by the id the insert was
    answered with. *)
Theorem saves_insert_once (env0 : Env) (envs : list Env) (this : Record_)
    (tx : list Statement) (trace : list Record_) (final : Record_ * list Statement) :
  saves (env0 :: envs) this tx = (trace, final) ->
  length trace = S (length envs) ->
  createdAt this = None ->
  exists (first : Record_) (later : list Record_),
    trace = first :: later
    /\ snd final
       = tx ++ Insert table (stamped_new (now env0) this) (returning_id env0)
               :: map (fun r => Update table (id first) r) later.
Proof.
  intros Hrun Hlen Hnew. cbn [saves] in Hrun.
  destruct (validate this) as [errors|] eqn:Hvalid.
  { rewrite (save_invalid _ _ _ _ Hvalid) in Hrun. by injection Hrun as <- _. }
  rewrite (save_new _ _ _ Hvalid Hnew) in Hrun.
  destruct (settles env0) as [value|reason]; [|by injection Hrun as <- _].
  destruct (saves envs _ _) as [later final'] eqn:Hrest.
  injection Hrun as <- <-. cbn in Hlen. eexists _, later. split; [reflexivity|].
  rewrite (saves_existing _ _ _ _ _ (now env0) Hrest ltac:(lia) eq_refl).
  by rewrite <- app_assoc.
Qed.

End RecordRuns.

(** ** Variables of a coverages request: the requested ids *)

Section CoveragesRequested.
Import Coverages.

Context {CmrUmmVariable : Type}.
Context (umm_Name : CmrUmmVariable -> string).

Local Abbreviation CmrCollection := (@CmrCollection CmrUmmVariable).
Local Abbreviation has := (has_variable umm_Name).
Local Abbreviation lookup := (lookup_variable umm_Name).

Lemma filter_all {A} (P : A -> Prop) `{!forall x, Decision (P x)} (l : list A) :
  Forall P l -> filter P l = l.
Proof.
  induction 1 as [|x l Hx _ IH]; [done|]. by rewrite filter_cons_True, IH.
Qed.

Lemma filter_ext_elem {A} (P Q : A -> Prop) `{!forall x, Decision (P x)}
    `{!forall x, Decision (Q x)} (l : list A) :
  (forall x, x ∈ l -> P x <-> Q x) -> filter P l = filter Q l.
Proof.
  induction l as [|x l IH]; intros Hext; [done|].
  rewrite !filter_cons.
  rewrite IH by (intros y Hy; apply Hext; by right).
  apply decide_ext, Hext. by left.
Qed.

(** The variable found for an id carries that id as its name and is one of
    the collection. *)
Lemma lookup_variable_Some (collection : CmrCollection) (variableId : string)
    (variable : CmrUmmVariable) :
  lookup collection variableId = Some variable ->
  umm_Name variable = variableId /\ variable ∈ variables collection.
Proof.
  unfold lookup_variable, JS.find. intros [Hin Hname]%find_some.
  apply bool_decide_eq_true in Hname. split; [done|]. by apply list_elem_of_In.
Qed.

(** The inner loop: the ids found leave [missingVariables], and the
    variables found are pushed in the order of the ids. *)
Lemma collect_fold (collection : CmrCollection) (variableIds missing : list string)
    (found : list CmrUmmVariable) :
  fold_left
    (fun '(missing, found) variableId =>
       match JS.find (fun v => JS.eqb (umm_Name v) variableId) (variables collection) with
       | Some variable =>
           (filter (fun v => v <> variableId) missing, found ++ [variable])
       | None => (missing, found)
       end)
    variableIds (missing, found)
  = (filter (fun v => ~ (v ∈ variableIds /\ has collection v)) missing,
     found ++ omap (lookup collection) variableIds).
Proof.
  revert missing found.
  induction variableIds as [|x variableIds IH]; intros missing found.
  - cbn. rewrite app_nil_r. f_equal. symmetry. apply filter_all, Forall_forall.
    intros v _ [Hv _]. by apply not_elem_of_nil in Hv.
  - cbn [fold_left].
    cbn [omap list_omap]. unfold lookup_variable at 1.
    destruct (JS.find _ (variables collection)) as [variable|] eqn:Hx;
      [change (lookup collection x = Some variable) in Hx
      |change (lookup collection x = None) in Hx].
    + rewrite IH, list_filter_filter, <- app_assoc. f_equal.
      apply list_filter_iff. intros v. rewrite elem_of_cons.
      assert (has collection x) as Hhas by (by eexists).
      split; [intros [Hv Hne] [[->|Hin] Hhasv]; tauto|].
      intros Hn. split; [tauto | intros ->; tauto].
    + rewrite IH. f_equal. apply list_filter_iff. intros v. rewrite elem_of_cons.
      assert (~ has collection x) as Hhas.
      { unfold has_variable. rewrite Hx. by intros [? ?]. }
      split; [|tauto]. intros Hv [[->|Hin] Hhasv]; tauto.
Qed.

Lemma collect_requested (collection : CmrCollection) (variableIds missing : list string) :
  collect umm_Name collection variableIds missing
  = (filter (fun v => ~ (v ∈ variableIds /\ has collection v)) missing,
     omap (lookup collection) variableIds).
Proof. unfold collect. by rewrite collect_fold. Qed.

(** The outer loop over the collections. *)
Lemma collections_fold (eosdisCollections : list CmrCollection)
    (variableIds missing : list string) (variableInfo : list VariableInfo) :
  fold_left
    (fun '(missing, variableInfo) collection =>
       let '(missing', found) := collect umm_Name collection variableIds missing in
       (missing',
        variableInfo ++ [{| collectionId := id collection; info_variables := Some found |}]))
    eosdisCollections (missing, variableInfo)
  = (filter (fun v => Forall (fun collection => ~ (v ∈ variableIds /\ has collection v))
                        eosdisCollections) missing,
     variableInfo ++ map (requested_entry umm_Name variableIds) eosdisCollections).
Proof.
  revert missing variableInfo.
  induction eosdisCollections as [|collection cols IH]; intros missing variableInfo.
  - cbn. rewrite app_nil_r. f_equal. symmetry. apply filter_all, Forall_forall.
    intros v _. constructor.
  - cbn [fold_left]. rewrite collect_requested, IH, list_filter_filter, <- app_assoc.
    f_equal. apply list_filter_iff. intros v. rewrite Forall_cons. tauto.
Qed.

(** [parseVariables] when [all] is not among the ids: it throws when some
    id names a variable of no collection, and returns one entry per
    collection otherwise. *)
Lemma parseVariables_requested (eosdisCollections : list CmrCollection)
    (collectionIdParam : string) :
  JS.includes (JS.split collectionIdParam ",") "all" = false ->
  parseVariables umm_Name eosdisCollections collectionIdParam
  = match filter (found_nowhere umm_Name eosdisCollections)
            (JS.split collectionIdParam ",") with
    | [] => Ok (map (requested_entry umm_Name (JS.split collectionIdParam ","))
                  eosdisCollections)
    | v :: missing =>
        Throw (RequestValidationError
                 ("Coverages were not found for the provided CMR collection: "
                  +:+ JS.join (v :: missing) ", "))
    end.
Proof.
  intros Hall. unfold parseVariables. rewrite Hall, collections_fold.
  rewrite (filter_ext_elem _ (found_nowhere umm_Name eosdisCollections)).
  - by destruct (filter _ _).
  - intros v Hv. unfold found_nowhere. apply Forall_iff. intros c. tauto.
Qed.

Lemma omap_lookup_names (collection : CmrCollection) (variableIds : list string) :
  map umm_Name (omap (lookup collection) variableIds)
  = filter (has collection) variableIds
  /\ forall v, v ∈ omap (lookup collection) variableIds -> v ∈ variables collection.
Proof.
  split.
  - induction variableIds as [|x ids IH]; [done|]. cbn [omap list_omap].
    destruct (lookup collection x) as [variable|] eqn:Hx.
    + rewrite filter_cons_True by (by eexists). cbn. rewrite IH.
      by destruct (lookup_variable_Some _ _ _ Hx) as [-> _].
    + rewrite filter_cons_False; [done|].
      unfold has_variable. rewrite Hx. by intros [? ?].
  - intros v (x & _ & Hx)%list_elem_of_omap.
    by destruct (lookup_variable_Some _ _ _ Hx).
Qed.

End CoveragesRequested.

Section CoveragesResults.
Import Coverages.

Context {CmrUmmVariable : Type}.
Context (umm_Name : CmrUmmVariable -> string).

Local Abbreviation CmrCollection := (@CmrCollection CmrUmmVariable).
Local Abbreviation VariableInfo := (@VariableInfo CmrUmmVariable).

Lemma fold_left_push {A B} (f : A -> B) (l : list A) (acc : list B) :
  fold_left (fun acc x => acc ++ [f x]) l acc = acc ++ map f l.
Proof.
  revert acc. induction l as [|x l IH]; intros acc; cbn.
  - by rewrite app_nil_r.
  - by rewrite IH, <- app_assoc.
Qed.

(** X12.  When [all] is not among the requested ids and every id names a
    variable of at least one collection, [parseVariables] returns one
    entry per collection, in the order of the collections; the entry of a
    collection lists, in the order of the ids, the first variable of the
    collection with each id that it has. *)
Theorem parseVariables_all_found (eosdisCollections : list CmrCollection)
    (collectionIdParam : string) :
  JS.includes (JS.split collectionIdParam ",") "all" = false ->
  (forall v, v ∈ JS.split collectionIdParam "," ->
     exists collection, collection ∈ eosdisCollections
                        /\ has_variable umm_Name collection v) ->
  parseVariables umm_Name eosdisCollections collectionIdParam
  = Ok (map (requested_entry umm_Name (JS.split collectionIdParam ","))
          eosdisCollections).
Proof.
  intros Hall Hfound. rewrite (parseVariables_requested _ _ _ Hall).
  destruct (filter _ _) as [|v missing] eqn:Hmissing; [done|].
  assert (v ∈ v :: missing) as Hv by left. rewrite <- Hmissing in Hv.
  apply list_elem_of_filter in Hv as [Hnowhere Hv].
  destruct (Hfound v Hv) as (c & Hc & Hhas).
  unfold found_nowhere in Hnowhere. rewrite Forall_forall in Hnowhere.
  by destruct (Hnowhere c Hc).
Qed.

(** X13.  When [all] is not among the requested ids and some id names a
    variable of no collection, [parseVariables] throws a
    [RequestValidationError] whose message lists, in the order of the
    request and separated by a comma and a space, exactly the ids that
    name a variable of no collection. *)
Theorem parseVariables_missing (eosdisCollections : list CmrCollection)
    (collectionIdParam v : string) :
  JS.includes (JS.split collectionIdParam ",") "all" = false ->
  v ∈ JS.split collectionIdParam "," ->
  found_nowhere umm_Name eosdisCollections v ->
  parseVariables umm_Name eosdisCollections collectionIdParam
  = Throw (RequestValidationError
             ("Coverages were not found for the provided CMR collection: "
              +:+ JS.join (filter (found_nowhere umm_Name eosdisCollections)
                             (JS.split collectionIdParam ",")) ", ")).
Proof.
  intros Hall Hv Hnowhere. rewrite (parseVariables_requested _ _ _ Hall).
  destruct (filter _ _) as [|v' missing] eqn:Hmissing; [|done].
  assert (v ∈ filter (found_nowhere umm_Name eosdisCollections)
                (JS.split collectionIdParam ",")) as Hin
    by (by apply list_elem_of_filter).
  rewrite Hmissing in Hin. by apply not_elem_of_nil in Hin.
Qed.

(** X14.  Whenever [parseVariables] returns for a request by ids, every
    requested id names a variable of some collection, and the result has
    one entry per collection, at the same position: it carries the id of
    the collection, its variables are variables of that collection, and
    their names are the requested ids the collection has, in the order of
    the request. *)
Theorem parseVariables_result (eosdisCollections : list CmrCollection)
    (collectionIdParam : string) (variableInfo : list VariableInfo) :
  JS.includes (JS.split collectionIdParam ",") "all" = false ->
  parseVariables umm_Name eosdisCollections collectionIdParam = Ok variableInfo ->
  (forall v, v ∈ JS.split collectionIdParam "," ->
     exists collection, collection ∈ eosdisCollections
                        /\ has_variable umm_Name collection v)
  /\ length variableInfo = length eosdisCollections
  /\ forall (i : nat) (collection : CmrCollection) (entry : VariableInfo),
       eosdisCollections !! i = Some collection ->
       variableInfo !! i = Some entry ->
       collectionId entry = id collection
       /\ exists found : list CmrUmmVariable,
            info_variables entry = Some found
            /\ map umm_Name found
               = filter (has_variable umm_Name collection) (JS.split collectionIdParam ",")
            /\ forall variable, variable ∈ found -> variable ∈ variables collection.
Proof.
  intros Hall. rewrite (parseVariables_requested _ _ _ Hall).
  destruct (filter _ _) as [|v' missing] eqn:Hmissing; [|done].
  intros [= <-]. split; [|split].
  - intros v Hv.
    destruct (decide (found_nowhere umm_Name eosdisCollections v)) as [Hnowhere|Hsome].
    + assert (v ∈ filter (found_nowhere umm_Name eosdisCollections)
                    (JS.split collectionIdParam ",")) as Hin
        by (by apply list_elem_of_filter).
      rewrite Hmissing in Hin. by apply not_elem_of_nil in Hin.
    + unfold found_nowhere in Hsome. apply not_Forall_Exists in Hsome; [|apply _].
      apply Exists_exists in Hsome as (c & Hc & Hhas). exists c. split; [done|].
      by destruct (decide (has_variable umm_Name c v)).
  - by rewrite length_map.
  - intros i collection entry Hc.
    change (map ?f ?l) with (f <$> l). rewrite list_lookup_fmap, Hc.
    intros [= <-]. split; [done|]. eexists. split; [reflexivity|].
    apply omap_lookup_names.
Qed.

(** X15.  For the parameter [all], [parseVariables] returns one entry per
    collection, in the order of the collections, with the id of the
    collection and no list of variables; it never throws. *)
Theorem parseVariables_all (eosdisCollections : list CmrCollection) :
  parseVariables umm_Name eosdisCollections "all"
  = Ok (map all_entry eosdisCollections).
Proof.
  unfold parseVariables.
  change (JS.includes (JS.split "all" ",") "all") with true.
  change (negb (length (JS.split "all" ",") =? 1)%nat) with false.
  cbn iota. f_equal. exact (fold_left_push all_entry eosdisCollections []).
Qed.

(** X16.  With no collection at all, a request by ids always throws, and
    the message lists every requested id. *)
Theorem parseVariables_no_collection (collectionIdParam : string) :
  JS.includes (JS.split collectionIdParam ",") "all" = false ->
  parseVariables umm_Name [] collectionIdParam
  = Throw (RequestValidationError
             ("Coverages were not found for the provided CMR collection: "
              +:+ JS.join (JS.split collectionIdParam ",") ", ")).
Proof.
  intros Hall. rewrite (parseVariables_requested _ _ _ Hall).
  rewrite filter_all by (apply Forall_forall; intros v _; constructor).
  destruct (JS.split collectionIdParam ",") eqn:Hsplit; [|done].
  by destruct (split_nonempty collectionIdParam ",").
Qed.

End CoveragesResults.

(** ** The EOSS frontend: the variables of [rangeSubset] *)

Section EossRangeSubset.
Import Eoss.

Context {CmrUmmVariable : Type}.
Context (umm_Name : CmrUmmVariable -> string).

Local Abbreviation named variableRequested :=
  (fun v : CmrUmmVariable => JS.eqb (umm_Name v) variableRequested).

(** The loop when every requested name is found. *)
Lemma resolve_found (collectionVars : list CmrUmmVariable)
    (variablesRequested : list string) (variables : list CmrUmmVariable) :
  Forall (fun x => is_Some (JS.find (named x) collectionVars)) variablesRequested ->
  exists found,
    resolve umm_Name collectionVars variablesRequested variables = Ok (variables ++ found)
    /\ map umm_Name found = variablesRequested
    /\ Forall (fun v => v ∈ collectionVars) found.
Proof.
  intros Hall. revert variables.
  induction Hall as [|x rest [v Hx] _ IH]; intros variables.
  - exists []. by rewrite app_nil_r.
  - cbn [resolve]. rewrite Hx. destruct (IH (variables ++ [v])) as (found & -> & Hnames & Hin).
    exists (v :: found). rewrite <- app_assoc. split; [done|].
    apply find_some in Hx as [Hv Hname]. apply bool_decide_eq_true in Hname.
    split; [cbn; by rewrite Hname, Hnames|].
    constructor; [by apply list_elem_of_In | done].
Qed.

(** The loop when a requested name is not found. *)
Lemma resolve_not_found (collectionVars : list CmrUmmVariable)
    (before after : list string) (x : string) (variables : list CmrUmmVariable) :
  Forall (fun y => is_Some (JS.find (named y) collectionVars)) before ->
  JS.find (named x) collectionVars = None ->
  resolve umm_Name collectionVars (before ++ x :: after) variables
  = Throw (RequestValidationError ("Invalid rangeSubset parameter: " +:+ x)).
Proof.
  intros Hbefore Hx. revert variables.
  induction Hbefore as [|y before [v Hy] _ IH]; intros variables; cbn [resolve app].
  - by rewrite Hx.
  - by rewrite Hy.
Qed.

(** X17.  When every name of [rangeSubset] is the name of a variable of
    the collection, the variables handed to the operation are variables of
    the collection, one per requested name and in the order of the
    request: their names are the requested names. *)
Theorem rangeSubsetVariables_found (collectionVars : list CmrUmmVariable)
    (variablesRequested : list string) :
  Forall (fun x => exists v, v ∈ collectionVars /\ umm_Name v = x) variablesRequested ->
  exists found,
    rangeSubsetVariables umm_Name collectionVars (Some variablesRequested) = Ok found
    /\ map umm_Name found = variablesRequested
    /\ Forall (fun v => v ∈ collectionVars) found.
Proof.
  intros Hall. unfold rangeSubsetVariables.
  destruct (resolve_found collectionVars variablesRequested []) as (found & Hok & Hrest).
  - eapply Forall_impl; [exact Hall|]. intros x (v & Hv & Hname). cbn.
    destruct (JS.find (named x) collectionVars) eqn:Hfind; [by eexists|].
    pose proof (find_none _ _ Hfind v (proj1 (list_elem_of_In _ _) Hv)) as Hneq.
    apply bool_decide_eq_false in Hneq. done.
  - by exists found.
Qed.

(** X18.  When some name of [rangeSubset] is the name of no variable of
    the collection, the loop of [getGranule] over [rangeSubset], once the
    handler has reached it, throws a [RequestValidationError] that names
    the first such name; the names after it are not looked at. *)
Theorem rangeSubsetVariables_not_found (collectionVars : list CmrUmmVariable)
    (before after : list string) (x : string) :
  Forall (fun y => exists v, v ∈ collectionVars /\ umm_Name v = y) before ->
  (forall v, v ∈ collectionVars -> umm_Name v <> x) ->
  rangeSubsetVariables umm_Name collectionVars (Some (before ++ x :: after))
  = Throw (RequestValidationError ("Invalid rangeSubset parameter: " +:+ x)).
Proof.
  intros Hbefore Hx. unfold rangeSubsetVariables. apply resolve_not_found.
  - eapply Forall_impl; [exact Hbefore|]. intros y (v & Hv & Hname). cbn.
    destruct (JS.find (named y) collectionVars) eqn:Hfind; [by eexists|].
    pose proof (find_none _ _ Hfind v (proj1 (list_elem_of_In _ _) Hv)) as Hneq.
    apply bool_decide_eq_false in Hneq. done.
  - destruct (JS.find (named x) collectionVars) as [v|] eqn:Hfind; [|done].
    apply find_some in Hfind as [Hv Hname]. apply bool_decide_eq_true in Hname.
    by destruct (Hx v (proj2 (list_elem_of_In _ _) Hv)).
Qed.

End EossRangeSubset.

(** ** The EOSS frontend: the granule of the URL *)

Section EossGranule.
Import Eoss.

Lemma span_spec (p : ascii -> bool) (s taken rest : string) :
  span p s = (taken, rest) -> s = taken +:+ rest /\ all_chars p taken = true.
Proof.
  revert taken rest. induction s as [|a s IH]; intros taken rest; cbn [span].
  - by intros [= <- <-].
  - destruct (p a) eqn:Ha; [|by intros [= <- <-]].
    destruct (span p s) as [taken' rest'] eqn:Hs. intros [= <- <-].
    destruct (IH _ _ eq_refl) as [-> Hall]. split; [done|]. cbn. by rewrite Ha.
Qed.

Lemma span_app (p : ascii -> bool) (s t : string) :
  all_chars p s = true -> span p (s +:+ t) = (s +:+ fst (span p t), snd (span p t)).
Proof.
  induction s as [|a s IH]; cbn [all_chars].
  - intros _. rewrite !string_app_nil. by destruct (span p t).
  - intros [Ha Hs]%andb_true_iff. rewrite string_app_cons. cbn [span].
    by rewrite Ha, (IH Hs).
Qed.

(** A match at the head of [s] is a slash and a granule id, and [s]
    starts with it. *)
Lemma granule_at_Some (s m : string) :
  granule_at s = Some m ->
  exists g post, m = String "/" g /\ s = m +:+ post /\ granule_id_shape g.
Proof.
  unfold granule_at. destruct s as [|a [|b rest]]; try done.
  destruct (JS.char_eqb a "/") eqn:Ha; [|done].
  destruct (JS.char_eqb b "G") eqn:Hb; [|done]. cbn [andb].
  apply char_eqb_eq in Ha as ->. apply char_eqb_eq in Hb as ->.
  destruct (span is_digit rest) as [[|d digits] [|h rest']] eqn:Hdigits; try done.
  destruct (JS.char_eqb h "-") eqn:Hh; [|done]. apply char_eqb_eq in Hh as ->.
  destruct (span is_word rest') as [[|w word] post] eqn:Hword; [done|].
  intros [= <-]. destruct (span_spec _ _ _ _ Hdigits) as [-> Hd].
  destruct (span_spec _ _ _ _ Hword) as [-> Hw].
  exists ("G" +:+ String d digits +:+ "-" +:+ String w word), post.
  split; [done|]. split.
  - rewrite !string_app_assoc. reflexivity.
  - by exists (String d digits), (String w word).
Qed.

Lemma first_granule_match_Some (url m : string) :
  first_granule_match url = Some m ->
  exists g pre post,
    m = String "/" g /\ url = pre +:+ "/" +:+ g +:+ post /\ granule_id_shape g.
Proof.
  induction url as [|a url IH]; cbn [first_granule_match].
  - done.
  - destruct (granule_at (String a url)) as [m'|] eqn:Hat.
    + intros [= ->]. destruct (granule_at_Some _ _ Hat) as (g & post & -> & Hurl & Hshape).
      exists g, EmptyString, post. by rewrite string_app_nil.
    + intros Hrest. destruct (IH Hrest) as (g & pre & post & -> & -> & Hshape).
      by exists g, (String a pre), post.
Qed.

(** A match at the head of a text that starts with a slash and a granule
    id. *)
Lemma granule_at_shape (g post : string) :
  granule_id_shape g -> is_Some (granule_at ("/" +:+ g +:+ post)).
Proof.
  intros (digits & word & -> & Hdigits & Hd & Hword & Hw).
  rewrite !string_app_assoc.
  change ("/" +:+ "G" +:+ digits +:+ "-" +:+ word +:+ post)
    with (String "/" (String "G" (digits +:+ String "-" (word +:+ post)))).
  cbn [granule_at]. rewrite (proj2 (char_eqb_eq "/" "/") eq_refl).
  rewrite (proj2 (char_eqb_eq "G" "G") eq_refl). cbn [andb].
  assert (forall rest, span is_digit (String "-" rest) = (EmptyString, String "-" rest))
    as Hhyphen by reflexivity.
  rewrite (span_app _ _ _ Hd), Hhyphen. cbn [fst snd]. rewrite string_app_empty.
  destruct digits as [|d digits]; [done|].
  rewrite (proj2 (char_eqb_eq "-" "-") eq_refl), (span_app _ _ _ Hw).
  destruct word as [|w word]; [done|]. rewrite string_app_cons. by eexists.
Qed.

Lemma first_granule_match_head (s m : string) :
  granule_at s = Some m -> first_granule_match s = Some m.
Proof. intros Hm. destruct s; cbn [first_granule_match]; by rewrite Hm. Qed.

Lemma first_granule_match_app (pre s : string) :
  is_Some (first_granule_match s) -> is_Some (first_granule_match (pre +:+ s)).
Proof.
  intros Hs. induction pre as [|a pre IH]; [by rewrite string_app_nil|].
  rewrite string_app_cons. cbn [first_granule_match].
  by destruct (granule_at (String a (pre +:+ s))).
Qed.

(** X19.  The granule [getGranule] takes from the URL, when it takes one,
    is a part of the URL that follows a slash and has the shape of a
    granule id: [G], one or more digits, a hyphen, one or more word
    characters. *)
Theorem granuleId_is_granule_id (url g : string) :
  granuleId url = Some g ->
  granule_id_shape g /\ exists pre post, url = pre +:+ "/" +:+ g +:+ post.
Proof.
  unfold granuleId. destruct (first_granule_match url) as [m|] eqn:Hm; [|done].
  destruct (first_granule_match_Some _ _ Hm) as (g' & pre & post & -> & -> & Hshape).
  intros [= <-]. split; [done|]. by exists pre, post.
Qed.

(** X20.  On a URL in which a slash is followed by a granule id, the
    match of [GRANULE_URL_PATH_REGEX] that [getGranule] makes is never
    null: the granule id it extracts from the match is defined. *)
Theorem granuleId_found (pre g post : string) :
  granule_id_shape g ->
  is_Some (granuleId (pre +:+ "/" +:+ g +:+ post)).
Proof.
  intros Hshape. unfold granuleId.
  destruct (first_granule_match_app pre ("/" +:+ g +:+ post)) as [m Hm].
  - destruct (granule_at_shape g post Hshape) as [m' Hm'].
    rewrite (first_granule_match_head _ _ Hm'). by eexists.
  - rewrite Hm. destruct (first_granule_match_Some _ _ Hm) as (g' & _ & _ & -> & _).
    by eexists.
Qed.

End EossGranule.

(** ** The further properties at concrete values *)

Lemma bindResponseUrl_before_configure_witness :
  Sample.bindResponseUrl Sample.callbackUUID "onComplete"
    (ServiceResponse.run (fun req : string => req)
       [ServiceResponse.OpUnbind (Some Sample.boundUrl);
        ServiceResponse.OpConfigure (Some EmptyString);
        ServiceResponse.OpConfigure None;
        ServiceResponse.OpResponseHandler Sample.callbackUUID tt]
       Sample.initial)
  = (Throw (Error "Call configure({ baseUrl }) before calling bindResponseUrl"),
     ServiceResponse.run (fun req : string => req)
       [ServiceResponse.OpUnbind (Some Sample.boundUrl);
        ServiceResponse.OpConfigure (Some EmptyString);
        ServiceResponse.OpConfigure None;
        ServiceResponse.OpResponseHandler Sample.callbackUUID tt]
       Sample.initial).
Proof.
  apply (bindResponseUrl_before_configure (fun req : string => req)
           [ServiceResponse.OpUnbind (Some Sample.boundUrl);
            ServiceResponse.OpConfigure (Some EmptyString);
            ServiceResponse.OpConfigure None;
            ServiceResponse.OpResponseHandler Sample.callbackUUID tt]
           Sample.initial Sample.callbackUUID "onComplete").
  - reflexivity.
  - repeat constructor.
Defined.

Lemma baseUrl_kept_up_to_trailing_slash_witness :
  exists base',
    JS.truthy
      (ServiceResponse.baseUrl
         (ServiceResponse.config
            (ServiceResponse.run (fun req : string => req)
               [ServiceResponse.OpConfigure (Some "http://localhost:3001/service");
                ServiceResponse.OpConfigure (Some "http://example.com/service/");
                ServiceResponse.OpBind Sample.callbackUUID "onComplete";
                ServiceResponse.OpResponseHandler Sample.callbackUUID tt]
               Sample.configured))) = Some base'
    /\ ServiceResponse.with_trailing_slash base'
       = ServiceResponse.with_trailing_slash "http://localhost:3001/service/".
Proof.
  apply (baseUrl_kept_up_to_trailing_slash (fun req : string => req)
           [ServiceResponse.OpConfigure (Some "http://localhost:3001/service");
            ServiceResponse.OpConfigure (Some "http://example.com/service/");
            ServiceResponse.OpBind Sample.callbackUUID "onComplete";
            ServiceResponse.OpResponseHandler Sample.callbackUUID tt]
           Sample.configured "http://localhost:3001/service/").
  reflexivity.
Defined.

Lemma responseHandler_after_bind_witness :
  Sample.responseHandler Sample.callbackUUID
    (snd (Sample.bindResponseUrl Sample.callbackUUID "onComplete" Sample.configured))
  = (Ok (ServiceResponse.Invoke "onComplete" Sample.callbackUUID tt),
     snd (Sample.bindResponseUrl Sample.callbackUUID "onComplete" Sample.configured)).
Proof.
  exact (responseHandler_after_bind (fun req : string => req) Sample.configured
           Sample.callbackUUID "http://localhost:3001/service/" "onComplete"
           Sample.callbackUUID tt eq_refl eq_refl).
Defined.

Lemma other_tokens_untouched_witness :
  fst (Sample.responseHandler Sample.callbackUUID
         (snd (Sample.bindResponseUrl "6ec0bd7f-11c0-43da-975e-2a8ad9ebae0b" "onOther"
                 Sample.bound)))
  = fst (Sample.responseHandler Sample.callbackUUID Sample.bound)
  /\ fst (Sample.responseHandler Sample.callbackUUID
            (Sample.unbindResponseUrl
               "http://localhost:3001/service/6ec0bd7f-11c0-43da-975e-2a8ad9ebae0b"
               Sample.bound))
     = fst (Sample.responseHandler Sample.callbackUUID Sample.bound).
Proof.
  apply (other_tokens_untouched (fun req : string => req) Sample.bound
           Sample.callbackUUID tt "6ec0bd7f-11c0-43da-975e-2a8ad9ebae0b"
           "http://localhost:3001/service/6ec0bd7f-11c0-43da-975e-2a8ad9ebae0b"
           "onOther").
  - discriminate.
  - discriminate.
Defined.

Lemma unbind_after_bind_restores_witness :
  Sample.bindResponseUrl Sample.callbackUUID "onComplete" Sample.configured
  = (Ok Sample.boundUrl, Sample.bound)
  /\ Sample.unbindResponseUrl Sample.boundUrl Sample.bound = Sample.configured.
Proof.
  exact (unbind_after_bind_restores Sample.configured Sample.callbackUUID
           "http://localhost:3001/service/" "onComplete"
           eq_refl eq_refl eq_refl eq_refl).
Defined.

Lemma save_after_rejected_insert_updates_witness :
  exists tx1 : list (Models.Statement string),
    Models.save (Sample.failing_at 1000) (Sample.job "alice") []
    = (Throw (Error "SQLITE_BUSY: database is locked"),
       Models.stamped_new 1000 (Sample.job "alice"), tx1)
    /\ tx1 = [Models.Insert "jobs" (Models.stamped_new 1000 (Sample.job "alice")) None]
    /\ snd (Models.save (Sample.at_time 2000 [1])
              (Models.stamped_new 1000 (Sample.job "alice")) tx1)
       = tx1 ++ [Models.Update "jobs" None
                   (Models.stamped 2000 (Models.stamped_new 1000 (Sample.job "alice")))].
Proof.
  exact (save_after_rejected_insert_updates (Sample.failing_at 1000)
           (Sample.at_time 2000 [1]) (Sample.job "alice") []
           (Error "SQLITE_BUSY: database is locked") eq_refl eq_refl eq_refl eq_refl).
Defined.

Lemma save_inherited_validate_witness :
  fst (fst (Models.save (H := Sample.Plain_class) (Sample.failing_at 1000) Sample.plain []))
  = Throw (Error "SQLITE_BUSY: database is locked").
Proof.
  exact (save_inherited_validate (H := Sample.Plain_class) (Sample.failing_at 1000)
           Sample.plain [] (fun r => eq_refl)).
Defined.

Lemma saves_insert_once_witness :
  exists (first : Sample.Job) (later : list Sample.Job),
    fst (Models.saves [Sample.at_time 1000 [7]; Sample.at_time 2000 [1];
                       Sample.at_time 3000 [1]] (Sample.job "alice") [])
    = first :: later
    /\ snd (snd (Models.saves [Sample.at_time 1000 [7]; Sample.at_time 2000 [1];
                               Sample.at_time 3000 [1]] (Sample.job "alice") []))
       = [] ++ Models.Insert "jobs" (Models.stamped_new 1000 (Sample.job "alice")) (Some "id")
               :: map (fun r => Models.Update "jobs" (Models.id first) r) later.
Proof.
  exact (saves_insert_once (Sample.at_time 1000 [7])
           [Sample.at_time 2000 [1]; Sample.at_time 3000 [1]] (Sample.job "alice") []
           _ _ eq_refl eq_refl eq_refl).
Defined.

Lemma parseVariables_all_found_witness :
  Coverages.parseVariables (fun name : string => name) [Sample.collection]
    "green_var,red_var"
  = Ok [{| Coverages.collectionId := "C1233800302-EEDTEST";
           Coverages.info_variables := Some ["green_var"; "red_var"] |}].
Proof.
  apply (parseVariables_all_found (fun name : string => name) [Sample.collection]
           "green_var,red_var").
  - reflexivity.
  - intros v Hv. exists Sample.collection. split; [left|].
    apply list_elem_of_In in Hv. vm_compute in Hv.
    destruct Hv as [<-|[<-|[]]]; eexists; reflexivity.
Defined.

Lemma parseVariables_missing_witness :
  Coverages.parseVariables (fun name : string => name) [Sample.collection]
    "blue_var,green_var,grey_var"
  = Throw (RequestValidationError
             "Coverages were not found for the provided CMR collection: blue_var, grey_var").
Proof.
  apply (parseVariables_missing (fun name : string => name) [Sample.collection]
           "blue_var,green_var,grey_var" "blue_var").
  - reflexivity.
  - left.
  - constructor; [|constructor]. intros [variable Hvariable]. discriminate.
Defined.

Lemma parseVariables_result_witness :
  (forall v, v ∈ JS.split "green_var,red_var" "," ->
     exists collection, collection ∈ [Sample.collection]
                        /\ Coverages.has_variable (fun name : string => name) collection v)
  /\ length [Coverages.requested_entry (fun name : string => name)
               ["green_var"; "red_var"] Sample.collection]
     = length [Sample.collection]
  /\ forall (i : nat) (collection : @Coverages.CmrCollection string)
       (entry : @Coverages.VariableInfo string),
       [Sample.collection] !! i = Some collection ->
       [Coverages.requested_entry (fun name : string => name)
          ["green_var"; "red_var"] Sample.collection] !! i = Some entry ->
       Coverages.collectionId entry = Coverages.id collection
       /\ exists found : list string,
            Coverages.info_variables entry = Some found
            /\ map (fun name : string => name) found
               = filter (Coverages.has_variable (fun name : string => name) collection)
                   (JS.split "green_var,red_var" ",")
            /\ forall variable, variable ∈ found ->
                 variable ∈ Coverages.variables collection.
Proof.
  exact (parseVariables_result (fun name : string => name) [Sample.collection]
           "green_var,red_var" _ eq_refl eq_refl).
Defined.

Lemma parseVariables_no_collection_witness :
  Coverages.parseVariables (fun name : string => name) [] "red_var,green_var"
  = Throw (RequestValidationError
             "Coverages were not found for the provided CMR collection: red_var, green_var").
Proof.
  exact (parseVariables_no_collection (fun name : string => name) "red_var,green_var"
           eq_refl).
Defined.

Lemma rangeSubsetVariables_found_witness :
  exists found,
    Eoss.rangeSubsetVariables (fun name : string => name) ["red_var"; "green_var"]
      (Some ["green_var"; "red_var"; "green_var"]) = Ok found
    /\ map (fun name : string => name) found = ["green_var"; "red_var"; "green_var"]
    /\ Forall (fun v => v ∈ ["red_var"; "green_var"]) found.
Proof.
  apply (rangeSubsetVariables_found (fun name : string => name) ["red_var"; "green_var"]
           ["green_var"; "red_var"; "green_var"]).
  repeat constructor; eexists; (split; [|reflexivity]); repeat constructor.
Defined.

Lemma rangeSubsetVariables_not_found_witness :
  Eoss.rangeSubsetVariables (fun name : string => name) ["red_var"; "green_var"]
    (Some (["red_var"] ++ "blue_var" :: ["grey_var"]))
  = Throw (RequestValidationError "Invalid rangeSubset parameter: blue_var").
Proof.
  apply (rangeSubsetVariables_not_found (fun name : string => name)
           ["red_var"; "green_var"] ["red_var"] ["grey_var"] "blue_var").
  - repeat constructor. eexists. split; [|reflexivity]. repeat constructor.
  - intros v Hv. apply list_elem_of_In in Hv. vm_compute in Hv.
    destruct Hv as [<-|[<-|[]]]; discriminate.
Defined.

Lemma granuleId_is_granule_id_witness :
  Eoss.granule_id_shape "G1224343298-GES_DISC"
  /\ exists pre post,
       "/C1215669046-GES_DISC/eoss/0.1.0/items/G1224343298-GES_DISC"
       = pre +:+ "/" +:+ "G1224343298-GES_DISC" +:+ post.
Proof.
  exact (granuleId_is_granule_id
           "/C1215669046-GES_DISC/eoss/0.1.0/items/G1224343298-GES_DISC"
           "G1224343298-GES_DISC" eq_refl).
Defined.

Lemma granuleId_found_witness :
  is_Some (Eoss.granuleId
             ("/C1215669046-GES_DISC/eoss/0.1.0/items" +:+ "/"
              +:+ "G1224343298-GES_DISC" +:+ "/extra")).
Proof.
  apply (granuleId_found "/C1215669046-GES_DISC/eoss/0.1.0/items"
           "G1224343298-GES_DISC" "/extra").
  exists "1224343298", "GES_DISC". repeat split; done.
Defined.
